(** * IssueScraper: the conversation-to-CSV pipeline of [src/app.ts]

    A shallow embedding of the text normaliser, the GitHub fetcher, the
    deduplicating aggregator and the row mappers of the tabular writer,
    followed by the properties the specification states about them.

    JavaScript strings are sequences of UTF-16 code units; they are modelled
    as [list N].  The external collaborators (GitHub REST and GraphQL, the
    embedding service, the markdown renderer, the clock and the event loop
    that decides when an un-awaited request completes) are the fields of a
    record [Services]. *)

From Stdlib Require Import NArith ZArith String Ascii Floats.PrimFloat.
From stdpp Require Import base list gmap sets.

Local Open Scope N_scope.

(** ** JavaScript strings *)

Abbreviation jsstring := (list N).

(** A string literal of the source, as code units. *)
Definition lit (s : string) : jsstring :=
  List.map N_of_ascii (list_ascii_of_string s).

Definition QUOTE : N := 34.
Definition LT : N := 60.
Definition GT : N := 62.
Definition SLASH : N := 47.

(** [p] is a prefix of [s]. *)
Fixpoint startsWith (p s : jsstring) : bool :=
  match p, s with
  | [], _ => true
  | _ :: _, [] => false
  | a :: p', b :: s' => (a =? b) && startsWith p' s'
  end.

(** [String.prototype.includes]: [w] occurs in [s] as a contiguous run. *)
Fixpoint includes (s w : jsstring) : bool :=
  startsWith w s ||
  match s with
  | [] => false
  | _ :: s' => includes s' w
  end.

(** [!text] for a value that is a string, [null] or [undefined]. *)
Definition falsy (text : option jsstring) : bool :=
  match text with
  | None => true
  | Some [] => true
  | Some (_ :: _) => false
  end.

(** [text.replace(/[class]/g, '')] for a one-character class. *)
Fixpoint removeChars (drop : N -> bool) (s : jsstring) : jsstring :=
  match s with
  | [] => []
  | c :: r => if drop c then removeChars drop r else c :: removeChars drop r
  end.

(** [text.replace(/c/g, by)] for a literal character [c]. *)
Fixpoint replaceChar (c : N) (by_ : jsstring) (s : jsstring) : jsstring :=
  match s with
  | [] => []
  | d :: r => (if d =? c then by_ else [d]) ++ replaceChar c by_ r
  end.

(** Decimal rendering of a non-negative integer, as in a template literal. *)
Fixpoint digitsOf (u : Decimal.uint) : jsstring :=
  match u with
  | Decimal.Nil => []
  | Decimal.D0 r => 48 :: digitsOf r
  | Decimal.D1 r => 49 :: digitsOf r
  | Decimal.D2 r => 50 :: digitsOf r
  | Decimal.D3 r => 51 :: digitsOf r
  | Decimal.D4 r => 52 :: digitsOf r
  | Decimal.D5 r => 53 :: digitsOf r
  | Decimal.D6 r => 54 :: digitsOf r
  | Decimal.D7 r => 55 :: digitsOf r
  | Decimal.D8 r => 56 :: digitsOf r
  | Decimal.D9 r => 57 :: digitsOf r
  end.

Definition showN (n : N) : jsstring := digitsOf (N.to_uint n).

(** [s.split(sep)] for a one-character separator: the current segment is
    accumulated in [cur]. *)
Fixpoint splitOn (sep : N) (cur : jsstring) (s : jsstring) : list jsstring :=
  match s with
  | [] => [cur]
  | c :: r => if c =? sep then cur :: splitOn sep [] r
              else splitOn sep (cur ++ [c]) r
  end.

(** [arr.slice(-2)]: the last two elements, or all of them when fewer. *)
Definition sliceLast2 {A} (l : list A) : list A :=
  drop (length l - 2)%nat l.

(** ** Text normaliser (src/app.ts:21-41) *)

Definition words : list jsstring :=
  [ lit "/start"; lit "/stop";
    lit "- Be sure to open a draft pull request as soon as possible to communicate updates on your progress.";
    lit "- Be sure to provide timely updates to us when requested, or you will be automatically unassigned from the task." ].

Definition removeSpecificWords (text : jsstring) : jsstring :=
  if existsb (fun word => includes text word) words then [] else text.

(** The range [\x20-\x7E]. *)
Definition isPrintable (c : N) : bool := (32 <=? c) && (c <=? 126).

(** The class [\s] of an ECMAScript regular expression: WhiteSpace and
    LineTerminator code points (tab, LF, VT, FF, CR, space, U+00A0, U+1680,
    U+2000..U+200A, U+2028, U+2029, U+202F, U+205F, U+3000, U+FEFF). *)
Definition isWhiteSpace (c : N) : bool :=
  ((9 <=? c) && (c <=? 13)) || (c =? 32) || (c =? 160) || (c =? 5760) ||
  ((8192 <=? c) && (c <=? 8202)) || (c =? 8232) || (c =? 8233) ||
  (c =? 8239) || (c =? 8287) || (c =? 12288) || (c =? 65279).

(** The characters the class [[^\x20-\x7E\s]] does not match. *)
Definition kept (c : N) : bool := isPrintable c || isWhiteSpace c.

Definition cleanText (text : option jsstring) : jsstring :=
  match text with
  | None => []
  | Some s =>
      if falsy text then []
      else
        let text1 := removeChars (fun c => negb (kept c)) s in
        replaceChar QUOTE [QUOTE; QUOTE] text1
  end.

(** A tag [<[^>]+>] can start at a [<] when the next character is not [>]
    and some [>] follows. *)
Definition opensTag (r : jsstring) : bool :=
  match r with
  | [] => false
  | d :: r' => negb (d =? GT) && existsb (N.eqb GT) r'
  end.

(** [html.replace(/<[^>]+>/g, '')]: [inTag] is set while the characters of a
    matched tag are being skipped up to its closing [>]. *)
Fixpoint stripTags (inTag : bool) (s : jsstring) : jsstring :=
  match s with
  | [] => []
  | c :: r =>
      if inTag then (if c =? GT then stripTags false r else stripTags true r)
      else if (c =? LT) && opensTag r then stripTags true r
      else c :: stripTags false r
  end.

(** [cleanMarkdown], over the renderer [marked] of the [marked] package. *)
Definition cleanMarkdown (marked : jsstring -> jsstring)
    (text : option jsstring) : jsstring :=
  match text with
  | None => []
  | Some s => if falsy text then [] else stripTags false (marked s)
  end.

(** [arr.join(sep)] over already rendered elements. *)
Fixpoint join (sep : jsstring) (l : list jsstring) : jsstring :=
  match l with
  | [] => []
  | [x] => x
  | x :: r => x ++ sep ++ join sep r
  end.

(** ** Data model *)

(** A JSON document returned by the REST collaborator and stored as a
    payload; it is kept as its text. *)
Record Json := { json_text : jsstring }.

(** One record of [devpool-issues.json]. *)
Record SeedIssue := {
  number : N;
  node_id : jsstring;
  body : option jsstring;
  user_login : jsstring;
  html_url : jsstring;
  repository_url : jsstring
}.

(** An element of the answer of [octokit.issues.listComments]. *)
Record RestComment := {
  rc_id : N;
  rc_node_id : jsstring;
  rc_body : option jsstring;
  rc_user_login : jsstring
}.

(** An element of the answer of [octokit.pulls.list]. *)
Record RestPR := {
  pr_node_id : jsstring;
  pr_number : N;
  pr_html_url : jsstring;
  pr_body : option jsstring;
  pr_base_repo_name : jsstring
}.

(** The nodes selected by the GraphQL query of [fetchPrDataGraphql]. *)
Record GqlComment := {
  gc_id : jsstring;
  gc_body : jsstring;
  gc_author_login : jsstring
}.

Record GraphqlPR := {
  gql_id : jsstring;
  gql_title : jsstring;
  gql_body : jsstring;
  gql_author_login : jsstring;
  gql_comments : list GqlComment;
  gql_reviewThreads : list (list GqlComment)
}.

(** The payload of a conversation item: the whole Octokit response for an
    issue, the [data] of the response for an issue comment, and a literal
    object for everything that comes from a pull request. *)
Inductive Payload :=
| IssueResponse (response : Json)
| CommentData (data : Json)
| PullRequestInfo (title body owner repo : jsstring)
                  (pull_number : N) (pull_url : jsstring).

(** Conversation item: an element of [allData] / [prData]. *)
Record Item := {
  item_id : jsstring;
  item_text : option jsstring;
  item_issue_id : jsstring;
  item_userLogin : jsstring;
  item_payload : Payload
}.

(** JavaScript numbers are IEEE 754 doubles. *)
Abbreviation jsnumber := float.

(** The answer of [vo.embed]: [data] and [embedding] may be missing. *)
Record EmbedItem := { embedding : option (list jsnumber) }.
Record EmbedResponse := { data : option (list EmbedItem) }.

(** Enriched entry: the object literal [entry] of [processIssues]. *)
Record Entry := {
  entry_id : jsstring;
  entry_plaintext : jsstring;
  entry_embedding : list jsnumber;
  entry_author_id : Z;
  entry_created_at : jsstring;
  entry_modified_at : jsstring;
  entry_markdown : jsstring;
  entry_issue_id : jsstring;
  entry_payload : Payload
}.

(** Rows handed to the CSV writer by [saveIssuesToCsv] and
    [saveCommentsToCsv]. *)
Record IssueRow := {
  ir_id : jsstring;
  ir_plaintext : jsstring;
  ir_embedding : jsstring;
  ir_payload : jsstring;
  ir_author_id : Z;
  ir_created_at : jsstring;
  ir_modified_at : jsstring;
  ir_markdown : jsstring
}.

Record CommentRow := {
  cr_id : jsstring;
  cr_plaintext : jsstring;
  cr_markdown : jsstring;
  cr_embedding : jsstring;
  cr_payload : jsstring;
  cr_author_id : Z;
  cr_created_at : jsstring;
  cr_modified_at : jsstring;
  cr_issue_id : jsstring
}.

(** ** The outside world *)

(** What a rejected request or a failed property access carries. *)
Record Error := { message : jsstring }.

(** What a computation can end with instead of a result: a JavaScript
    exception, or the exhaustion of the bound given to the inner loop of
    [processIssues], which belongs to the model and is shown never to
    happen. *)
Inductive Exn :=
| Thrown (e : Error)
| OutOfFuel.

(** The requests the program sends to its collaborators. *)
Inductive Request :=
| IssuesGet (owner repo : option jsstring) (issue_number : N)
| IssuesListComments (owner repo : option jsstring) (issue_number : N)
| IssuesGetComment (owner repo : option jsstring) (comment_id : N)
| PullsList (owner repo : option jsstring)
| GraphqlNode (pullRequestId : jsstring)
| UsersGet (login : jsstring)
| VoyageEmbed (input : jsstring).

(** What the program does to the outside, in order. *)
Inductive Event :=
| Sent (r : Request)
| ConsoleLog (msg : jsstring)
| ConsoleError (msg : jsstring) (error : Exn)
| UnhandledRejection (error : Error).

(** The collaborators.  Each request either is rejected with an [Error] or
    yields its answer.  [Date_toISOString n] is the reading of the clock at
    its [n]-th use.  [completes k] is the event loop's choice at the [k]-th
    suspension of the main flow: the positions, in the list of pushes still
    waiting for their request, of those that complete during it, in order
    of completion. *)
Record Services := {
  issues_get : option jsstring -> option jsstring -> N -> Error + Json;
  issues_listComments :
    option jsstring -> option jsstring -> N -> Error + list RestComment;
  issues_getComment : option jsstring -> option jsstring -> N -> Error + Json;
  pulls_list : option jsstring -> option jsstring -> Error + list RestPR;
  graphql_node : jsstring -> Error + GraphqlPR;
  users_get : jsstring -> Error + Z;
  vo_embed : jsstring -> Error + EmbedResponse;
  marked : jsstring -> jsstring;
  Number_toString : jsnumber -> jsstring;
  JSON_stringify : Payload -> jsstring;
  Date_toISOString : nat -> jsstring;
  completes : nat -> list nat
}.

(** The state the run threads: the console and network [trace], the number
    of suspensions ([awaits]) and clock readings ([reads]) so far, and the
    array [allData] of the issue in progress with the pushes of its
    [forEach] callbacks that still wait for their request ([pending]). *)
Record World := {
  trace : list Event;
  awaits : nat;
  reads : nat;
  allData : list Item;
  pending : list Item
}.

(** A computation: it changes the world and returns a result or throws.
    What it did before throwing stays done. *)
Definition M (A : Type) : Type := World -> (Exn + A) * World.

#[global] Instance M_ret : MRet M := fun A a w => (inr a, w).

#[global] Instance M_bind : MBind M := fun A B f m w =>
  match m w with
  | (inr a, w') => f a w'
  | (inl e, w') => (inl e, w')
  end.

Definition throw {A} (e : Exn) : M A := fun w => (inl e, w).

(** [try { m } catch (error) { handler error }]. *)
Definition try_catch {A} (m : M A) (handler : Exn -> M A) : M A := fun w =>
  match m w with
  | (inr a, w') => (inr a, w')
  | (inl e, w') => handler e w'
  end.

Definition emit (e : Event) : M unit := fun w =>
  (inr tt, {| trace := trace w ++ [e]; awaits := awaits w; reads := reads w;
              allData := allData w; pending := pending w |}).

Definition console_log (msg : jsstring) : M unit := emit (ConsoleLog msg).

(** The pushes chosen by the event loop are appended to the array in their
    order of completion. *)
Fixpoint deliver (ns : list nat) (arr pend : list Item)
    : list Item * list Item :=
  match ns with
  | [] => (arr, pend)
  | n :: ns' =>
      match pend !! n with
      | Some it => deliver ns' (arr ++ [it]) (delete n pend)
      | None => deliver ns' arr pend
      end
  end.

(** A read of the clock. *)
Definition tick : M nat := fun w =>
  (inr (reads w), {| trace := trace w; awaits := awaits w;
                     reads := S (reads w);
                     allData := allData w; pending := pending w |}).

(** [allData = [...]]: a fresh array.  The callbacks of an earlier issue
    only hold the earlier array, which nothing reads any more. *)
Definition newArray (l : list Item) : M unit := fun w =>
  (inr tt, {| trace := trace w; awaits := awaits w; reads := reads w;
              allData := l; pending := [] |}).

(** [allData.push(...items)]. *)
Definition pushAll (items : list Item) : M unit := fun w =>
  (inr tt, {| trace := trace w; awaits := awaits w; reads := reads w;
              allData := allData w ++ items; pending := pending w |}).

(** A push that waits for its request. *)
Definition defer (it : Item) : M unit := fun w =>
  (inr tt, {| trace := trace w; awaits := awaits w; reads := reads w;
              allData := allData w; pending := pending w ++ [it] |}).

Section Pipeline.

Context (svc : Services).

(** The main flow is suspended on a network answer; meanwhile the event loop
    runs the continuations of the requests it chooses. *)
Definition suspend : M unit := fun w =>
  let delivered := deliver (completes svc (awaits w)) (allData w) (pending w) in
  (inr tt, {| trace := trace w; awaits := S (awaits w); reads := reads w;
              allData := fst delivered; pending := snd delivered |}).

(** [await request]: send, wait, then resume with the answer or the
    rejection. *)
Definition await {A} (r : Request) (answer : Error + A) : M A :=
  _ ← emit (Sent r);
  _ ← suspend;
  match answer with
  | inr a => mret a
  | inl e => throw (Thrown e)
  end.

(** [for (const x of xs) { await f(x) }] and, for a callback that does not
    suspend, [xs.forEach(f)]. *)
Fixpoint forEachM {A} (f : A -> M unit) (xs : list A) : M unit :=
  match xs with
  | [] => mret tt
  | x :: r => _ ← f x; forEachM f r
  end.

(** ** Embedding client adapter (src/app.ts:43-53) *)

Definition formatEmbedding (embedding : list jsnumber) : jsstring :=
  lit "[" ++ join (lit ", ") (map (Number_toString svc) embedding) ++ lit "]".

(** [(response.data && response.data[0]?.embedding) || []]. *)
Definition firstEmbedding (response : EmbedResponse) : list jsnumber :=
  match data response with
  | None => []
  | Some [] => []
  | Some (first :: _) =>
      match embedding first with
      | Some e => e
      | None => []
      end
  end.

Definition extractEmbeddings (text : jsstring) : M (list jsnumber) :=
  response ← await (VoyageEmbed text) (vo_embed svc text);
  mret (firstEmbedding response).

(** ** Author lookup and clock (src/app.ts:55-67) *)

Definition fetchAuthorId (userLogin : jsstring) : M Z :=
  try_catch
    (await (UsersGet userLogin) (users_get svc userLogin))
    (fun error =>
       _ ← emit (ConsoleError
                   (lit "Error fetching author ID for " ++ userLogin ++ lit ":")
                   error);
       mret (-1)%Z).

Definition getCurrentTimestamp : M jsstring :=
  n ← tick;
  mret (Date_toISOString svc n).

(** ** GitHub data fetcher (src/app.ts:69-284) *)

(** [const [repoOwner, repoName] = this.repository_url.split('/').slice(-2)]. *)
Definition ownerRepo (iss : SeedIssue) : option jsstring * option jsstring :=
  let parts := sliceLast2 (splitOn SLASH [] (repository_url iss)) in
  (parts !! 0%nat, parts !! 1%nat).

Definition fetchPayloadIssue (issueNumber : N) (orgName repoName : option jsstring)
    : M Json :=
  await (IssuesGet orgName repoName issueNumber)
        (issues_get svc orgName repoName issueNumber).

Definition fetchPrDataGraphql (prNodeId : jsstring) : M GraphqlPR :=
  await (GraphqlNode prNodeId) (graphql_node svc prNodeId).

Definition fetchIssueComments (iss : SeedIssue) : M (list RestComment) :=
  let '(repoOwner, repoName) := ownerRepo iss in
  await (IssuesListComments repoOwner repoName (number iss))
        (issues_listComments svc repoOwner repoName (number iss)).

(** The filter of [fetchAssociatedPRs]. *)
Definition mentions (iss : SeedIssue) (pr : RestPR) : bool :=
  match pr_body pr with
  | None => false
  | Some b =>
      negb (falsy (Some b)) &&
      (includes b (lit "#" ++ showN (number iss)) || includes b (html_url iss))
  end.

Definition fetchAssociatedPRs (iss : SeedIssue) : M (list RestPR) :=
  let '(repoOwner, repoName) := ownerRepo iss in
  prs ← await (PullsList repoOwner repoName) (pulls_list svc repoOwner repoName);
  mret (List.filter (mentions iss) prs).

Definition prPayload (graphqlData : GraphqlPR) (pr : RestPR) : Payload :=
  PullRequestInfo (gql_title graphqlData) (gql_body graphqlData)
                  (gql_author_login graphqlData) (pr_base_repo_name pr)
                  (pr_number pr) (pr_html_url pr).

(** The first element of [prData]: the body of the pull request. *)
Definition prItem (iss : SeedIssue) (graphqlData : GraphqlPR) (pr : RestPR)
    : Item :=
  {| item_id := gql_id graphqlData;
     item_text := Some (gql_body graphqlData);
     item_issue_id := node_id iss;
     item_userLogin := gql_author_login graphqlData;
     item_payload := prPayload graphqlData pr |}.

(** The object pushed for a pull-request comment or review-thread comment. *)
Definition prCommentItem (iss : SeedIssue) (graphqlData : GraphqlPR)
    (pr : RestPR) (comment : GqlComment) : Item :=
  {| item_id := gc_id comment;
     item_text := Some (gc_body comment);
     item_issue_id := node_id iss;
     item_userLogin := gc_author_login comment;
     item_payload := prPayload graphqlData pr |}.

(** [fetchPrData].  The two [forEach] callbacks are declared [async] but
    contain no [await]: each runs to its end, push included, when it is
    called, so the pushes are folds over the nodes. *)
Definition fetchPrData (iss : SeedIssue) (pr : RestPR) : M (list Item) :=
  graphqlData ← fetchPrDataGraphql (pr_node_id pr);
  let prData := [ prItem iss graphqlData pr ] in
  let prData :=
    foldl (fun prData comment =>
             prData ++ [prCommentItem iss graphqlData pr comment])
          prData (gql_comments graphqlData) in
  let prData :=
    foldl (fun prData thread =>
             foldl (fun prData comment =>
                      prData ++ [prCommentItem iss graphqlData pr comment])
                   prData thread)
          prData (gql_reviewThreads graphqlData) in
  mret prData.

(** The first element of [allData]: the body of the issue. *)
Definition issueItem (iss : SeedIssue) (payload : Json) : Item :=
  {| item_id := node_id iss;
     item_text := body iss;
     item_issue_id := node_id iss;
     item_userLogin := user_login iss;
     item_payload := IssueResponse payload |}.

(** The object pushed for an issue comment. *)
Definition issueCommentItem (iss : SeedIssue) (comment : RestComment)
    (payload : Json) : Item :=
  {| item_id := rc_node_id comment;
     item_text := rc_body comment;
     item_issue_id := node_id iss;
     item_userLogin := rc_user_login comment;
     item_payload := CommentData payload |}.

(** The [forEach] callback of [fetchAllRelatedData]: [fetchPayloadComment]
    sends its request at once; the callback then waits for the answer, and
    nothing waits for the callback.  Its push stays pending until the event
    loop completes the request; a rejected request leaves a rejected promise
    that nobody handles, and no push. *)
Definition issueCommentCallback (iss : SeedIssue) (comment : RestComment)
    : M unit :=
  let '(repoOwner, repoName) := ownerRepo iss in
  _ ← emit (Sent (IssuesGetComment repoOwner repoName (rc_id comment)));
  match issues_getComment svc repoOwner repoName (rc_id comment) with
  | inr payload => defer (issueCommentItem iss comment payload)
  | inl e => emit (UnhandledRejection e)
  end.

(** [fetchAllRelatedData]: the returned array is [allData] of the world,
    which the callbacks still pending can extend after the return. *)
Definition fetchAllRelatedData (iss : SeedIssue) : M unit :=
  let '(repoOwner, repoName) := ownerRepo iss in
  payload ← fetchPayloadIssue (number iss) repoOwner repoName;
  _ ← newArray [ issueItem iss payload ];
  issueComments ← fetchIssueComments iss;
  _ ← forEachM (issueCommentCallback iss) issueComments;
  associatedPRs ← fetchAssociatedPRs iss;
  forEachM (fun pr => prData ← fetchPrData iss pr; pushAll prData)
           associatedPRs.

(** ** Tabular writer: the row mappers (src/app.ts:291-332)

    [saveIssuesToCsv] and [saveCommentsToCsv] map the entries to rows and
    hand the rows to the CSV library, which writes the file; the rows are
    what the model keeps of the file. *)

Definition issueRow (item : Entry) : IssueRow :=
  {| ir_id := entry_id item;
     ir_plaintext := entry_plaintext item;
     ir_embedding := formatEmbedding (entry_embedding item);
     ir_payload := JSON_stringify svc (entry_payload item);
     ir_author_id := entry_author_id item;
     ir_created_at := entry_created_at item;
     ir_modified_at := entry_modified_at item;
     ir_markdown := entry_markdown item |}.

Definition commentRow (item : Entry) : CommentRow :=
  {| cr_id := entry_id item;
     cr_plaintext := entry_plaintext item;
     cr_markdown := entry_markdown item;
     cr_embedding := formatEmbedding (entry_embedding item);
     cr_payload := JSON_stringify svc (entry_payload item);
     cr_author_id := entry_author_id item;
     cr_created_at := entry_created_at item;
     cr_modified_at := entry_modified_at item;
     cr_issue_id := entry_issue_id item |}.

Definition saveIssuesToCsv (allData : list Entry) : list IssueRow :=
  map issueRow allData.

Definition saveCommentsToCsv (allData : list Entry) : list CommentRow :=
  map commentRow allData.

(** ** Deduplicating aggregator (src/app.ts:335-385) *)

(** The four accumulators of [processIssues].  [built] is a history
    variable: every [entry] object the loop body constructs, with the item
    it was made from, in order; nothing reads it. *)
Record Acc := {
  issueDataList : list Entry;
  commentDataList : list Entry;
  issueIds : gset jsstring;
  commentIds : gset jsstring;
  built : list (Item * Entry)
}.

Definition emptyAcc : Acc :=
  {| issueDataList := []; commentDataList := [];
     issueIds := ∅; commentIds := ∅; built := [] |}.

Definition record (item : Item) (entry : Entry) (acc : Acc) : Acc :=
  {| issueDataList := issueDataList acc;
     commentDataList := commentDataList acc;
     issueIds := issueIds acc;
     commentIds := commentIds acc;
     built := built acc ++ [(item, entry)] |}.

(** [id.includes("PR") || id.includes("IC")]. *)
Definition hasCommentMarker (id : jsstring) : bool :=
  includes id (lit "PR") || includes id (lit "IC").

(** Lines 369-379: classification and deduplication. *)
Definition route (item : Item) (entry : Entry) (acc : Acc) : Acc :=
  if hasCommentMarker (item_id item) then
    if decide (item_id item ∈ commentIds acc) then acc
    else {| issueDataList := issueDataList acc;
            commentDataList := commentDataList acc ++ [entry];
            issueIds := issueIds acc;
            commentIds := {[ item_id item ]} ∪ commentIds acc;
            built := built acc |}
  else
    if decide (item_id item ∈ issueIds acc) then acc
    else {| issueDataList := issueDataList acc ++ [entry];
            commentDataList := commentDataList acc;
            issueIds := {[ item_id item ]} ∪ issueIds acc;
            commentIds := commentIds acc;
            built := built acc |}.

(** The object literal [entry] of lines 357-367. *)
Definition makeEntry (iss : SeedIssue) (item : Item) (cleanedText : jsstring)
    (embedding : list jsnumber) (authorId : Z)
    (created_at modified_at : jsstring) : Entry :=
  {| entry_id := item_id item;
     entry_plaintext := cleanText (Some cleanedText);
     entry_embedding := embedding;
     entry_author_id := authorId;
     entry_created_at := created_at;
     entry_modified_at := modified_at;
     entry_markdown := cleanText (item_text item);
     entry_issue_id := node_id iss;
     entry_payload := item_payload item |}.

(** The body of the inner loop, for one item of the issue [iss]. *)
Definition processItem (iss : SeedIssue) (item : Item) (acc : Acc) : M Acc :=
  let cleanedText := cleanMarkdown (marked svc) (item_text item) in
  embedding ← extractEmbeddings cleanedText;
  authorId ← fetchAuthorId (item_userLogin item);
  created_at ← getCurrentTimestamp;
  modified_at ← getCurrentTimestamp;
  let entry :=
    makeEntry iss item cleanedText embedding authorId created_at modified_at in
  mret (route item entry (record item entry acc)).

(** [for (const item of allRelatedData)]: the array iterator reads the
    array afresh at every step, so it also visits what is pushed while the
    body is suspended.  [j] is the iterator's index.  The array and the
    pending pushes together never grow, which bounds the number of steps;
    [fuel] is that bound. *)
Fixpoint forOf (fuel : nat) (j : nat) (iss : SeedIssue) (acc : Acc) : M Acc :=
  fun w =>
    match allData w !! j with
    | None => (inr acc, w)
    | Some item =>
        match fuel with
        | O => (inl OutOfFuel, w)
        | S fuel' =>
            (acc' ← processItem iss item acc; forOf fuel' (S j) iss acc') w
        end
    end.

Definition forOfAllRelatedData (iss : SeedIssue) (acc : Acc) : M Acc :=
  fun w => forOf (length (allData w) + length (pending w)) 0 iss acc w.

(** The loop over the seed issues. *)
Fixpoint processIssues_loop (data : list SeedIssue) (acc : Acc) : M Acc :=
  match data with
  | [] => mret acc
  | issue :: rest =>
      _ ← console_log (lit "Processing issue " ++ showN (number issue) ++ lit "...");
      if falsy (body issue) then
        _ ← console_log (lit "Skipping issue " ++ showN (number issue)
                           ++ lit " as it has no body.");
        processIssues_loop rest acc
      else
        _ ← fetchAllRelatedData issue;
        acc' ← forOfAllRelatedData issue acc;
        processIssues_loop rest acc'
  end.

(** [processIssues] over the parsed content [data] of the input file; the
    result is the rows given to the CSV writer for [issues_data.csv] and
    for [comments_data.csv]. *)
Definition processIssues (data : list SeedIssue)
    : M (list IssueRow * list CommentRow) :=
  acc ← processIssues_loop data emptyAcc;
  mret (saveIssuesToCsv (issueDataList acc),
        saveCommentsToCsv (commentDataList acc)).

End Pipeline.

(** ** A small repository to run the pipeline on

    Issue 42 of [acme/app] ("Fix the bug", by alice) has one comment, by
    bob, and one pull request mentions it; the pull request has one
    top-level comment and one review thread with one comment.  The second
    seed issue has no body. *)
Module Demo.

Definition issue42 : SeedIssue :=
  {| number := 42;
     node_id := lit "I_1";
     body := Some (lit "Fix the bug");
     user_login := lit "alice";
     html_url := lit "https://github.com/acme/app/issues/42";
     repository_url := lit "https://api.github.com/repos/acme/app" |}.

Definition issue43 : SeedIssue :=
  {| number := 43;
     node_id := lit "I_2";
     body := None;
     user_login := lit "alice";
     html_url := lit "https://github.com/acme/app/issues/43";
     repository_url := lit "https://api.github.com/repos/acme/app" |}.

Definition comment7 : RestComment :=
  {| rc_id := 7;
     rc_node_id := lit "IC_7";
     rc_body := Some (32 :: QUOTE :: lit "hi" ++ [QUOTE; 233]);
     rc_user_login := lit "bob" |}.

Definition comment8 : RestComment :=
  {| rc_id := 8;
     rc_node_id := lit "IC_8";
     rc_body := Some (lit "+1");
     rc_user_login := lit "zed" |}.

Definition pull9 : RestPR :=
  {| pr_node_id := lit "PR_9";
     pr_number := 9;
     pr_html_url := lit "https://github.com/acme/app/pull/9";
     pr_body := Some (lit "Fixes #42");
     pr_base_repo_name := lit "app" |}.

Definition pull12 : RestPR :=
  {| pr_node_id := lit "PR_12";
     pr_number := 12;
     pr_html_url := lit "https://github.com/acme/app/pull/12";
     pr_body := Some (lit "Unrelated");
     pr_base_repo_name := lit "app" |}.

Definition node9 : GraphqlPR :=
  {| gql_id := lit "PR_9";
     gql_title := lit "Fix";
     gql_body := lit "Fixes #42";
     gql_author_login := lit "carol";
     gql_comments :=
       [ {| gc_id := lit "IC_10"; gc_body := lit "LGTM";
            gc_author_login := lit "bob" |} ];
     gql_reviewThreads :=
       [ [ {| gc_id := lit "PRRC_11"; gc_body := lit "nit";
              gc_author_login := lit "alice" |} ] ] |}.

Definition offline : Error := {| message := lit "ECONNRESET" |}.

(** The collaborators, for a list [comments] of comments on issue 42 and an
    event loop [loop]. *)
Definition services (comments : list RestComment) (loop : nat -> list nat)
    : Services :=
  {| issues_get := fun _ _ n => inr {| json_text := showN n |};
     issues_listComments := fun _ _ n =>
       inr (if n =? 42 then comments else []);
     issues_getComment := fun _ _ id => inr {| json_text := showN id |};
     pulls_list := fun _ _ => inr [pull12; pull9];
     graphql_node := fun id =>
       if decide (id = lit "PR_9") then inr node9 else inl offline;
     users_get := fun login =>
       if decide (login = lit "alice") then inr 1%Z
       else if decide (login = lit "bob") then inr 2%Z
       else inl offline;
     vo_embed := fun input =>
       if includes input (lit "LGTM") then inr {| data := None |}
       else inr {| data := Some [ {| embedding := Some [1%float; 2%float] |} ] |};
     marked := fun s => lit "<p>" ++ s ++ lit "</p>";
     Number_toString := fun x =>
       if PrimFloat.eqb x 1%float then lit "1"
       else if PrimFloat.eqb x 2%float then lit "2" else lit "0";
     JSON_stringify := fun p =>
       match p with
       | IssueResponse j => json_text j
       | CommentData j => json_text j
       | PullRequestInfo _ _ _ _ n _ => showN n
       end;
     Date_toISOString := fun n => lit "2024-01-01T00:00:00." ++ showN (N.of_nat n);
     completes := loop |}.

(** Every pending push completes, oldest first, at the next suspension. *)
Definition prompt : nat -> list nat := fun _ => [0; 0; 0; 0]%nat.

(** The answer about comment 7 arrives while the embedding of the first
    item is being computed, that is at suspension 4 (after the issue, its
    comments, the pull requests and the GraphQL node). *)
Definition late : nat -> list nat := fun k => if (k =? 4)%nat then [0%nat] else [].

(** The answer about comment 7 arrives after the run is over. *)
Definition never : nat -> list nat := fun _ => [].

(** Comment 8 is answered before comment 7. *)
Definition swapped : nat -> list nat := fun _ => [1; 0]%nat.

Definition world0 : World :=
  {| trace := []; awaits := 0; reads := 0; allData := []; pending := [] |}.

(** The accumulators at the end of a run that does not throw. *)
Definition final (svc : Services) (data : list SeedIssue) : Acc :=
  match fst (processIssues_loop svc data emptyAcc world0) with
  | inr acc => acc
  | inl _ => emptyAcc
  end.

End Demo.

(** ** The demo repository with a collaborator down, or all of them up *)
Module Outage.

Definition base : Services := Demo.services [Demo.comment7] Demo.prompt.

(** [octokit.issues.get] is rejected. *)
Definition no_issue_api : Services :=
  {| issues_get := fun _ _ _ => inl Demo.offline;
     issues_listComments := issues_listComments base;
     issues_getComment := issues_getComment base;
     pulls_list := pulls_list base;
     graphql_node := graphql_node base;
     users_get := users_get base;
     vo_embed := vo_embed base;
     marked := marked base;
     Number_toString := Number_toString base;
     JSON_stringify := JSON_stringify base;
     Date_toISOString := Date_toISOString base;
     completes := completes base |}.

(** The embedding service is rejected. *)
Definition no_embedding : Services :=
  {| issues_get := issues_get base;
     issues_listComments := issues_listComments base;
     issues_getComment := issues_getComment base;
     pulls_list := pulls_list base;
     graphql_node := graphql_node base;
     users_get := users_get base;
     vo_embed := fun _ => inl Demo.offline;
     marked := marked base;
     Number_toString := Number_toString base;
     JSON_stringify := JSON_stringify base;
     Date_toISOString := Date_toISOString base;
     completes := completes base |}.


End Outage.

(** * Vocabulary of the properties *)

(** What the specification says [cleanText] does to one character. *)
Definition cleanChar (c : N) : jsstring :=
  if kept c then (if c =? QUOTE then [QUOTE; QUOTE] else [c]) else [].

(** [returns m Q]: whenever [m] returns, its result satisfies [Q]. *)
Definition returns {A} (m : M A) (Q : A -> Prop) : Prop :=
  forall w a w', m w = (inr a, w') -> Q a.

(** [preserves Inv m]: [m] keeps the property [Inv] of the world, whether it
    returns or throws, and what it throws is never [OutOfFuel]. *)
Definition preserves {A} (Inv : World -> Prop) (m : M A) : Prop :=
  forall w, Inv w -> Inv (snd (m w)) /\ fst (m w) <> inl OutOfFuel.


(** [total m]: [m] returns, from every world. *)
Definition total {A} (m : M A) : Prop := forall w, exists a w', m w = (inr a, w').

(** The number of items of the current issue, pushed or still to push. *)
Definition size (w : World) : nat := (length (allData w) + length (pending w))%nat.

(** The world in which the answer to a request arrives. *)
Definition afterRequest (svc : Services) (r : Request) (w : World) : World :=
  snd (suspend svc (snd (emit (Sent r) w))).

(** The world after the two messages logged for a skipped issue. *)
Definition skipped (issue : SeedIssue) (w : World) : World :=
  {| trace := trace w ++
       [ ConsoleLog (lit "Processing issue " ++ showN (number issue) ++ lit "...");
         ConsoleLog (lit "Skipping issue " ++ showN (number issue)
                       ++ lit " as it has no body.") ];
     awaits := awaits w; reads := reads w;
     allData := allData w; pending := pending w |}.

(** [built_from iss item entry]: [entry] is an object the loop body can
    build from [item] while it works on the seed issue [iss]. *)
Definition built_from (svc : Services) (iss : SeedIssue) (item : Item)
    (entry : Entry) : Prop :=
  exists response authorId created_at modified_at,
    vo_embed svc (cleanMarkdown (marked svc) (item_text item)) = inr response /\
    (users_get svc (item_userLogin item) = inr authorId \/
     (exists e, users_get svc (item_userLogin item) = inl e) /\
     authorId = (-1)%Z) /\
    entry = makeEntry iss item (cleanMarkdown (marked svc) (item_text item))
                      (firstEmbedding response) authorId created_at modified_at.

(** The tables and the identifier sets against the history of the run. *)
Record Tables_ok (svc : Services) (acc : Acc) : Prop := {
  ok_issueIds :
    forall x, x ∈ issueIds acc <-> x ∈ entry_id <$> issueDataList acc;
  ok_commentIds :
    forall x, x ∈ commentIds acc <-> x ∈ entry_id <$> commentDataList acc;
  ok_issues_marker :
    Forall (fun e => hasCommentMarker (entry_id e) = false) (issueDataList acc);
  ok_comments_marker :
    Forall (fun e => hasCommentMarker (entry_id e) = true) (commentDataList acc);
  ok_issues_nodup : NoDup (entry_id <$> issueDataList acc);
  ok_comments_nodup : NoDup (entry_id <$> commentDataList acc);
  ok_placed :
    forall it e, (it, e) ∈ built acc ->
      entry_id e ∈ entry_id <$> (if hasCommentMarker (entry_id e)
                                 then commentDataList acc
                                 else issueDataList acc);
  ok_first :
    forall e, e ∈ issueDataList acc \/ e ∈ commentDataList acc ->
      exists pre it post,
        built acc = pre ++ (it, e) :: post /\
        Forall (fun p => entry_id p.2 <> entry_id e) pre;
  ok_history :
    Forall (fun p => exists iss, built_from svc iss p.1 p.2) (built acc)
}.

(** The answer of a collaborator, when there is one. *)
Definition answered {A} (x : Error + A) : list A :=
  match x with
  | inr a => [a]
  | inl _ => []
  end.

(** The items of the issue comments, in the order of the listing. *)
Definition commentItems (svc : Services) (iss : SeedIssue)
    (comments : list RestComment) : list Item :=
  comment ← comments;
  payload ← answered (issues_getComment svc (ownerRepo iss).1 (ownerRepo iss).2
                                        (rc_id comment));
  [issueCommentItem iss comment payload].

(** The items of a list of pull requests: for each, its body, its
    top-level comments, its review-thread comments. *)
Definition pullRequestItems (svc : Services) (iss : SeedIssue)
    (prs : list RestPR) : list Item :=
  pr ← prs;
  graphqlData ← answered (graphql_node svc (pr_node_id pr));
  prItem iss graphqlData pr ::
    (prCommentItem iss graphqlData pr <$> gql_comments graphqlData) ++
    (prCommentItem iss graphqlData pr <$> concat (gql_reviewThreads graphqlData)).

(** The order the specification gives for the items of one seed issue: the
    issue body, then each issue comment, then for each associated pull
    request its body, its top-level comments and its review-thread
    comments. *)
Definition fetchOrder (svc : Services) (iss : SeedIssue) : list Item :=
  let repoOwner := (ownerRepo iss).1 in
  let repoName := (ownerRepo iss).2 in
  (issueItem iss <$> answered (issues_get svc repoOwner repoName (number iss))) ++
  (comments ← answered (issues_listComments svc repoOwner repoName (number iss));
   commentItems svc iss comments) ++
  (prs ← answered (pulls_list svc repoOwner repoName);
   pullRequestItems svc iss (List.filter (mentions iss) prs)).

(** The items of one pull request, in the order [fetchPrData] builds them. *)
Definition prBlock (iss : SeedIssue) (graphqlData : GraphqlPR) (pr : RestPR)
    : list Item :=
  prItem iss graphqlData pr ::
    (prCommentItem iss graphqlData pr <$> gql_comments graphqlData) ++
    (prCommentItem iss graphqlData pr <$> concat (gql_reviewThreads graphqlData)).

(** A match of [<[^>]+>] starts at the head of [s]. *)
Definition tagAt (s : jsstring) : bool :=
  match s with
  | [] => false
  | c :: r => (c =? LT) && opensTag r
  end.

(** [/<[^>]+>/.test(s)]: a match starts somewhere in [s]. *)
Fixpoint hasTag (s : jsstring) : bool :=
  tagAt s ||
  match s with
  | [] => false
  | _ :: r => hasTag r
  end.

(** * Properties *)

(** ** Text normaliser *)

Lemma removeChars_replaceChar_flat_map (s : jsstring) :
  replaceChar QUOTE [QUOTE; QUOTE] (removeChars (fun c => negb (kept c)) s)
  = flat_map cleanChar s.
Proof.
  induction s as [|c r IH]; [reflexivity|].
  cbn [removeChars flat_map]. unfold cleanChar at 1.
  destruct (kept c); cbn [negb]; [|exact IH].
  cbn [replaceChar]. now rewrite IH.
Qed.

Lemma cleanText_flat_map (s : jsstring) :
  cleanText (Some s) = flat_map cleanChar s.
Proof.
  destruct s as [|c r]; [reflexivity|].
  unfold cleanText, falsy. apply removeChars_replaceChar_flat_map.
Qed.

Lemma cleanChar_kept (c : N) : Forall (fun d => kept d = true) (cleanChar c).
Proof.
  unfold cleanChar. destruct (kept c) eqn:Hc; [|constructor].
  destruct (N.eqb_spec c QUOTE) as [->|_]; repeat constructor; assumption.
Qed.

Lemma cleanChar_quotes (c : N) :
  count_occ N.eq_dec (cleanChar c) QUOTE
  = (2 * count_occ N.eq_dec [c] QUOTE)%nat.
Proof.
  unfold cleanChar. destruct (N.eqb_spec c QUOTE) as [->|Hne].
  - reflexivity.
  - cbn [count_occ]. destruct (N.eq_dec c QUOTE) as [?|_]; [contradiction|].
    destruct (kept c); [|reflexivity].
    cbn [count_occ]. destruct (N.eq_dec c QUOTE); [contradiction|reflexivity].
Qed.

(** A string the cleaner has nothing to do on. *)
Lemma cleanText_fixed (s : jsstring) :
  Forall (fun c => kept c = true /\ c <> QUOTE) s -> cleanText (Some s) = s.
Proof.
  rewrite cleanText_flat_map.
  induction 1 as [|c r [Hk Hq] _ IH]; [reflexivity|].
  cbn [flat_map]. rewrite IH. unfold cleanChar. rewrite Hk.
  destruct (N.eqb_spec c QUOTE); [contradiction|reflexivity].
Qed.

(** C4.  [cleanText] yields the empty string on the falsy inputs ([null] or
    [undefined], and the empty string).  On any string it works character
    by character: a character outside printable ASCII and outside the
    whitespace class is dropped, a double quote becomes two double quotes,
    any other character is kept.  Hence every character of the output is
    printable ASCII or whitespace, and the output has exactly twice as many
    double quotes as the input.  It is a function of its argument alone. *)
Theorem cleanText_contract :
  cleanText None = [] /\
  cleanText (Some []) = [] /\
  (forall s, cleanText (Some s) = flat_map cleanChar s) /\
  (forall text,
     Forall (fun c => isPrintable c = true \/ isWhiteSpace c = true)
            (cleanText text)) /\
  (forall s,
     count_occ N.eq_dec (cleanText (Some s)) QUOTE
     = (2 * count_occ N.eq_dec s QUOTE)%nat).
Proof.
  split; [reflexivity|]. split; [reflexivity|].
  split; [exact cleanText_flat_map|]. split.
  - intros [s|]; [|constructor].
    rewrite cleanText_flat_map.
    induction s as [|c r IH]; [constructor|].
    cbn [flat_map]. apply Forall_app. split; [|exact IH].
    eapply Forall_impl; [apply cleanChar_kept|].
    intros d Hd. unfold kept in Hd. now apply orb_true_iff in Hd.
  - intros s. rewrite cleanText_flat_map.
    induction s as [|c r IH]; [reflexivity|].
    cbn [flat_map]. rewrite count_occ_app, IH, cleanChar_quotes.
    change (c :: r) with ([c] ++ r). rewrite count_occ_app. lia.
Qed.

(** The empty string contains none of the boilerplate phrases. *)
Lemma removeSpecificWords_empty : removeSpecificWords [] = [].
Proof. reflexivity. Qed.

(** C9.  [removeSpecificWords] returns the empty string or its argument, and
    applying it twice is the same as applying it once. *)
Theorem removeSpecificWords_idempotent (t : jsstring) :
  (removeSpecificWords t = [] \/ removeSpecificWords t = t) /\
  removeSpecificWords (removeSpecificWords t) = removeSpecificWords t.
Proof.
  unfold removeSpecificWords at 1 2 4.
  destruct (existsb (fun word => includes t word) words) eqn:Hw.
  - split; [now left|]. unfold removeSpecificWords. now rewrite Hw.
  - split; [now right|]. unfold removeSpecificWords. now rewrite Hw.
Qed.

Example cleanText_quotes_and_accents :
  cleanText (Some (lit "say " ++ [QUOTE] ++ lit "hi" ++ [QUOTE; 233; 160; 9]))
  = lit "say " ++ [QUOTE; QUOTE] ++ lit "hi" ++ [QUOTE; QUOTE; 160; 9].
Proof. reflexivity. Qed.

Example stripTags_html :
  stripTags false (lit "<p>Fix <b>the</b> a<>b < c > d <x")
  = lit "Fix the a<>b  d <x".
Proof. reflexivity. Qed.

Example removeSpecificWords_start :
  removeSpecificWords (lit "please /start now") = [] /\
  removeSpecificWords (lit "please begin now") = lit "please begin now".
Proof. split; reflexivity. Qed.

(** ** Reasoning about runs *)

Lemma bind_run {A B} (m : M A) (f : A -> M B) (w : World) :
  (m ≫= f) w =
  match m w with
  | (inr a, w') => f a w'
  | (inl e, w') => (inl e, w')
  end.
Proof. reflexivity. Qed.

Lemma returns_ret {A} (a : A) (Q : A -> Prop) : Q a -> returns (mret a) Q.
Proof. intros HQ w a' w' [= <- _]. exact HQ. Qed.

Lemma returns_bind {A B} (m : M A) (f : A -> M B) (R : A -> Prop)
    (Q : B -> Prop) :
  returns m R -> (forall a, R a -> returns (f a) Q) -> returns (m ≫= f) Q.
Proof.
  intros Hm Hf w b w'. rewrite bind_run.
  destruct (m w) as [[e|a] w1] eqn:Hrun; [discriminate|].
  intros Hb. exact (Hf a (Hm _ _ _ Hrun) _ _ _ Hb).
Qed.

Lemma returns_any {A} (m : M A) : returns m (fun _ => True).
Proof. intros w a w' _. exact I. Qed.

Lemma preserves_ret {A} Inv (a : A) : preserves Inv (mret a).
Proof. intros w Hw. split; [exact Hw|discriminate]. Qed.

Lemma preserves_bind {A B} Inv (m : M A) (f : A -> M B) :
  preserves Inv m -> (forall a, preserves Inv (f a)) -> preserves Inv (m ≫= f).
Proof.
  intros Hm Hf w Hw. rewrite bind_run.
  destruct (Hm w Hw) as [Hw1 Hne].
  destruct (m w) as [[e|a] w1]; [|exact (Hf a w1 Hw1)].
  split; [exact Hw1|]. cbn [fst] in *. intros [= ->]. now apply Hne.
Qed.

Lemma preserves_try_catch {A} Inv (m : M A) (h : Exn -> M A) :
  preserves Inv m -> (forall e, preserves Inv (h e)) ->
  preserves Inv (try_catch m h).
Proof.
  intros Hm Hh w Hw. unfold try_catch.
  destruct (Hm w Hw) as [Hw1 Hne].
  destruct (m w) as [[e|a] w1]; [|split; [exact Hw1|discriminate]].
  exact (Hh e w1 Hw1).
Qed.

Lemma preserves_forEachM {A} Inv (f : A -> M unit) (xs : list A) :
  (forall x, preserves Inv (f x)) -> preserves Inv (forEachM f xs).
Proof.
  intros Hf. induction xs as [|x r IH]; [apply preserves_ret|].
  cbn [forEachM]. apply preserves_bind; [apply Hf|intros _; exact IH].
Qed.

Lemma deliver_size (ns : list nat) (arr pend : list Item) :
  (length (deliver ns arr pend).1 + length (deliver ns arr pend).2
   = length arr + length pend)%nat.
Proof.
  revert arr pend. induction ns as [|n ns IH]; intros arr pend; [reflexivity|].
  cbn [deliver]. destruct (pend !! n) as [it|] eqn:Hn; [|apply IH].
  rewrite IH, length_app, length_delete by eauto.
  apply lookup_lt_Some in Hn. cbn [length]. lia.
Qed.

Section Runs.

Context (svc : Services).

Lemma preserves_emit Inv (e : Event) :
  (forall w, Inv w -> Inv (snd (emit e w))) -> preserves Inv (emit e).
Proof. intros H w Hw. split; [exact (H w Hw)|discriminate]. Qed.

Lemma preserves_await {A} Inv (r : Request) (answer : Error + A) :
  (forall w, Inv w -> Inv (snd (emit (Sent r) w))) ->
  (forall w, Inv w -> Inv (snd (suspend svc w))) ->
  preserves Inv (await svc r answer).
Proof.
  intros He Hs. unfold await.
  apply preserves_bind; [apply preserves_emit, He|intros _].
  apply preserves_bind.
  - intros w Hw. split; [exact (Hs w Hw)|discriminate].
  - intros _. destruct answer as [e|a]; [|apply preserves_ret].
    intros w Hw. split; [exact Hw|discriminate].
Qed.

Lemma emit_size (e : Event) (w : World) : size (snd (emit e w)) = size w.
Proof. reflexivity. Qed.

Lemma suspend_size (w : World) : size (snd (suspend svc w)) = size w.
Proof.
  unfold suspend, size. cbn [snd allData pending]. apply deliver_size.
Qed.

(** The body of the inner loop neither adds an item nor loses one. *)
Lemma processItem_steady (n : nat) iss item acc :
  preserves (fun w => size w = n) (processItem svc iss item acc).
Proof.
  assert (Ha : forall A r (answer : Error + A),
             preserves (fun w => size w = n) (await svc r answer)).
  { intros A r answer. apply preserves_await; intros w Hw.
    - now rewrite emit_size.
    - now rewrite suspend_size. }
  assert (Ht : preserves (fun w => size w = n) (getCurrentTimestamp svc)).
  { unfold getCurrentTimestamp. apply preserves_bind.
    - intros w Hw. split; [exact Hw|discriminate].
    - intros k. apply preserves_ret. }
  unfold processItem, extractEmbeddings, fetchAuthorId.
  apply preserves_bind.
  { apply preserves_bind; [apply Ha|intros; apply preserves_ret]. }
  intros embedding. apply preserves_bind.
  { apply preserves_try_catch; [apply Ha|intros e].
    apply preserves_bind; [|intros; apply preserves_ret].
    apply preserves_emit. intros w Hw. now rewrite emit_size. }
  intros authorId. apply preserves_bind; [exact Ht|intros c].
  apply preserves_bind; [exact Ht|intros m]. apply preserves_ret.
Qed.

(** The fuel given to the inner loop is enough: the loop stops because the
    iterator is done, never because the fuel ran out. *)
Lemma forOf_fuel_enough (fuel j : nat) iss acc (w : World) :
  (size w <= fuel + j)%nat ->
  fst (forOf svc fuel j iss acc w) <> inl OutOfFuel.
Proof.
  revert j acc w. induction fuel as [|fuel IH]; intros j acc w Hsz.
  - cbn [forOf]. destruct (allData w !! j) as [item|] eqn:Hj; [|discriminate].
    apply lookup_lt_Some in Hj. unfold size in Hsz. lia.
  - cbn [forOf]. destruct (allData w !! j) as [item|] eqn:Hj; [|discriminate].
    rewrite bind_run.
    destruct (processItem_steady (size w) iss item acc w eq_refl) as [Hw1 Hne].
    destruct (processItem svc iss item acc w) as [[e|acc1] w1]; [exact Hne|].
    apply IH. cbn [snd] in Hw1. lia.
Qed.

Lemma forOfAllRelatedData_fuel_enough iss acc (w : World) :
  fst (forOfAllRelatedData svc iss acc w) <> inl OutOfFuel.
Proof. apply forOf_fuel_enough. unfold size. lia. Qed.

End Runs.

(** ** The run as a whole: it ends, and it returns when the collaborators
    answer *)

Section Termination.

Context (svc : Services).

(** Nothing but the inner loop can run out of fuel. *)
Lemma fetchAllRelatedData_no_fuel iss :
  preserves (fun _ => True) (fetchAllRelatedData svc iss).
Proof.
  assert (Ha : forall A r (answer : Error + A),
             preserves (fun _ => True) (await svc r answer)).
  { intros. apply preserves_await; intros; exact I. }
  assert (Hu : forall (m : M unit),
             (forall w, exists w', m w = (inr tt, w')) ->
             preserves (fun _ => True) m).
  { intros m Hm w _. destruct (Hm w) as [w' ->]. split; [exact I|discriminate]. }
  unfold fetchAllRelatedData, fetchPayloadIssue, fetchIssueComments,
    fetchAssociatedPRs.
  destruct (ownerRepo iss) as [repoOwner repoName].
  apply preserves_bind; [apply Ha|intros payload].
  apply preserves_bind; [apply Hu; eauto|intros _].
  apply preserves_bind; [apply Ha|intros issueComments].
  apply preserves_bind.
  { apply preserves_forEachM. intros comment. unfold issueCommentCallback.
    destruct (ownerRepo iss) as [o r].
    apply preserves_bind; [apply Hu; eauto|intros _].
    destruct (issues_getComment svc o r (rc_id comment)); apply Hu; eauto. }
  intros _. apply preserves_bind.
  { apply preserves_bind; [apply Ha|intros; apply preserves_ret]. }
  intros associatedPRs. apply preserves_forEachM. intros pr.
  apply preserves_bind; [|intros; apply Hu; eauto].
  unfold fetchPrData, fetchPrDataGraphql.
  apply preserves_bind; [apply Ha|intros; apply preserves_ret].
Qed.

(** Whatever the collaborators and the event loop do, the run does not stop
    for lack of fuel. *)
Lemma processIssues_loop_fuel_enough (data : list SeedIssue) acc (w : World) :
  fst (processIssues_loop svc data acc w) <> inl OutOfFuel.
Proof.
  revert acc w. induction data as [|issue rest IH]; intros acc w; [discriminate|].
  cbn [processIssues_loop]. rewrite bind_run. cbn [console_log emit].
  destruct (falsy (body issue)).
  - rewrite bind_run. cbn [console_log emit]. apply IH.
  - rewrite bind_run.
    match goal with |- context [fetchAllRelatedData svc issue ?w0] =>
      destruct (fetchAllRelatedData_no_fuel issue w0 I) as [_ Hne];
      destruct (fetchAllRelatedData svc issue w0) as [[e|[]] w1]
    end; [cbn [fst] in *; intros [= ->]; now apply Hne|].
    rewrite bind_run.
    pose proof (forOfAllRelatedData_fuel_enough svc issue acc w1) as Hf.
    destruct (forOfAllRelatedData svc issue acc w1) as [[e|acc1] w2]; [exact Hf|].
    apply IH.
Qed.





Lemma total_fetchAuthorId login : total (fetchAuthorId svc login).
Proof.
  intros w. unfold fetchAuthorId, try_catch, await. rewrite bind_run.
  cbn [emit]. rewrite bind_run. cbn [suspend].
  destruct (users_get svc login); now eexists _, _.
Qed.





End Termination.

(** ** The aggregator: what a run builds and where it puts it *)

Section Aggregator.

Context (svc : Services).

Lemma returns_await {A} (r : Request) (answer : Error + A) :
  returns (await svc r answer) (fun a => answer = inr a).
Proof.
  intros w a w'. unfold await. rewrite bind_run. cbn [emit].
  rewrite bind_run. cbn [suspend].
  destruct answer as [e|a0]; [discriminate|]. now intros [= -> _].
Qed.

Lemma returns_fetchAuthorId (login : jsstring) :
  returns (fetchAuthorId svc login)
    (fun id => users_get svc login = inr id \/
               (exists e, users_get svc login = inl e) /\ id = (-1)%Z).
Proof.
  intros w id w'. unfold fetchAuthorId, try_catch, await.
  rewrite bind_run. cbn [emit]. rewrite bind_run. cbn [suspend].
  destruct (users_get svc login) as [e|id0].
  - cbn. intros [= <- _]. right. eauto.
  - cbn. intros [= <- _]. now left.
Qed.

Lemma built_from_id iss item entry :
  built_from svc iss item entry -> entry_id entry = item_id item.
Proof. now intros (? & ? & ? & ? & _ & _ & ->). Qed.

Lemma returns_extractEmbeddings (text : jsstring) :
  returns (extractEmbeddings svc text)
    (fun embedding => exists response,
       vo_embed svc text = inr response /\ embedding = firstEmbedding response).
Proof.
  unfold extractEmbeddings.
  eapply returns_bind; [apply returns_await|].
  intros response Hresp. apply returns_ret. now exists response.
Qed.

Lemma processItem_returns iss item acc :
  returns (processItem svc iss item acc)
    (fun acc' => exists entry,
       built_from svc iss item entry /\
       acc' = route item entry (record item entry acc)).
Proof.
  unfold processItem, getCurrentTimestamp.
  eapply returns_bind; [apply returns_extractEmbeddings|].
  intros embedding (response & Hresp & ->).
  eapply returns_bind; [apply returns_fetchAuthorId|].
  intros authorId Hauthor.
  eapply returns_bind; [apply returns_any|intros created_at _].
  eapply returns_bind; [apply returns_any|intros modified_at _].
  apply returns_ret. eexists. split; [|reflexivity].
  now exists response, authorId, created_at, modified_at.
Qed.

(** A property of the accumulators that every step of the inner loop keeps
    holds when the run returns. *)
Lemma processIssues_loop_invariant (P : Acc -> Prop) :
  (forall iss item entry acc,
     P acc -> built_from svc iss item entry ->
     P (route item entry (record item entry acc))) ->
  forall data acc, P acc -> returns (processIssues_loop svc data acc) P.
Proof.
  intros Hstep.
  assert (Hfor : forall iss fuel j acc, P acc -> returns (forOf svc fuel j iss acc) P).
  { intros iss fuel. induction fuel as [|fuel IH]; intros j acc Hacc w a w';
      cbn [forOf]; (destruct (allData w !! j) as [item|];
                    [|now intros [= <- _]]); [discriminate|].
    apply (returns_bind _ _ _ P (processItem_returns iss item acc)).
    intros acc1 (entry & Hbuilt & ->). apply IH. now apply (Hstep iss). }
  intros seeds. induction seeds as [|issue rest IH]; intros acc Hacc;
    cbn [processIssues_loop].
  - now apply returns_ret.
  - eapply returns_bind; [apply returns_any|intros _ _].
    destruct (falsy (body issue)).
    + eapply returns_bind; [apply returns_any|intros _ _]. now apply IH.
    + eapply returns_bind; [apply returns_any|intros _ _].
      eapply returns_bind; [|intros acc1 Hacc1; apply IH, Hacc1].
      intros w a w'. unfold forOfAllRelatedData. now apply Hfor.
Qed.

Lemma Tables_ok_empty : Tables_ok svc emptyAcc.
Proof.
  split; cbn; try (constructor; fail).
  - intros x. split; intros H; [now apply not_elem_of_empty in H|inversion H].
  - intros x. split; intros H; [now apply not_elem_of_empty in H|inversion H].
  - intros it e H. inversion H.
  - intros e [H|H]; inversion H.
Qed.

Lemma Tables_ok_step iss item entry acc :
  Tables_ok svc acc -> built_from svc iss item entry ->
  Tables_ok svc (route item entry (record item entry acc)).
Proof.
  intros [Hi Hc Hmi Hmc Hni Hnc Hpl Hfst Hhist] Hbuilt.
  pose proof (built_from_id _ _ _ Hbuilt) as Hid.
  assert (Hhist' : Forall (fun p => exists iss, built_from svc iss p.1 p.2)
                          (built acc ++ [(item, entry)])).
  { apply Forall_app. split; [exact Hhist|]. repeat constructor. now exists iss. }
  assert (Hold : forall e, e ∈ issueDataList acc \/ e ∈ commentDataList acc ->
            exists pre it post,
              built acc ++ [(item, entry)] = pre ++ (it, e) :: post /\
              Forall (fun p => entry_id p.2 <> entry_id e) pre).
  { intros e He. destruct (Hfst e He) as (pre & it & post & -> & Hpre).
    exists pre, it, (post ++ [(item, entry)]). split; [|exact Hpre].
    now rewrite <- app_assoc. }
  assert (Hfresh : forall tbl : list Entry,
            tbl = (if hasCommentMarker (entry_id entry)
                   then commentDataList acc else issueDataList acc) ->
            entry_id entry ∉ entry_id <$> tbl ->
            Forall (fun p => entry_id p.2 <> entry_id entry) (built acc)).
  { intros tbl -> Hnot. apply Forall_forall. intros [it e] Hin Heq.
    apply Hnot. cbn [snd] in Heq. rewrite <- Heq at 1.
    rewrite <- Heq. exact (Hpl it e Hin). }
  unfold route, record. cbn [issueDataList commentDataList issueIds commentIds built].
  rewrite <- Hid.
  destruct (hasCommentMarker (entry_id entry)) eqn:Hm.
  - destruct (decide (entry_id entry ∈ commentIds acc)) as [Hin|Hnin].
    + split; cbn; try assumption.
      intros it e [Hp|Hp]%elem_of_app; [exact (Hpl it e Hp)|].
      apply list_elem_of_singleton in Hp as [= -> ->]. rewrite Hm. now apply Hc.
    + assert (Hnot : entry_id entry ∉ entry_id <$> commentDataList acc)
        by (intros H; now apply Hnin, Hc).
      split; cbn; try assumption.
      * intros x. rewrite fmap_app, elem_of_app, elem_of_union, elem_of_singleton.
        cbn. rewrite list_elem_of_singleton, Hc. tauto.
      * apply Forall_app. split; [exact Hmc|]. now repeat constructor.
      * rewrite fmap_app. apply NoDup_app. split; [exact Hnc|]. split.
        -- intros x Hx [= ->]%list_elem_of_singleton. contradiction.
        -- apply NoDup_singleton.
      * intros it e [Hp|Hp]%elem_of_app.
        -- specialize (Hpl it e Hp). destruct (hasCommentMarker (entry_id e));
             [|exact Hpl]. rewrite fmap_app. apply elem_of_app. now left.
        -- apply list_elem_of_singleton in Hp as [= -> ->]. rewrite Hm.
           rewrite fmap_app. apply elem_of_app. right. cbn. apply list_elem_of_here.
      * intros e [He|[He|He]%elem_of_app]; [now apply Hold; left|now apply Hold; right|].
        apply list_elem_of_singleton in He as ->.
        exists (built acc), item, []. split; [reflexivity|].
        exact (Hfresh _ eq_refl Hnot).
  - destruct (decide (entry_id entry ∈ issueIds acc)) as [Hin|Hnin].
    + split; cbn; try assumption.
      intros it e [Hp|Hp]%elem_of_app; [exact (Hpl it e Hp)|].
      apply list_elem_of_singleton in Hp as [= -> ->]. rewrite Hm. now apply Hi.
    + assert (Hnot : entry_id entry ∉ entry_id <$> issueDataList acc)
        by (intros H; now apply Hnin, Hi).
      split; cbn; try assumption.
      * intros x. rewrite fmap_app, elem_of_app, elem_of_union, elem_of_singleton.
        cbn. rewrite list_elem_of_singleton, Hi. tauto.
      * apply Forall_app. split; [exact Hmi|]. now repeat constructor.
      * rewrite fmap_app. apply NoDup_app. split; [exact Hni|]. split.
        -- intros x Hx [= ->]%list_elem_of_singleton. contradiction.
        -- apply NoDup_singleton.
      * intros it e [Hp|Hp]%elem_of_app.
        -- specialize (Hpl it e Hp). destruct (hasCommentMarker (entry_id e));
             [exact Hpl|]. rewrite fmap_app. apply elem_of_app. now left.
        -- apply list_elem_of_singleton in Hp as [= -> ->]. rewrite Hm.
           rewrite fmap_app. apply elem_of_app. right. cbn. apply list_elem_of_here.
      * intros e [[He|He]%elem_of_app|He]; [now apply Hold; left| |now apply Hold; right].
        apply list_elem_of_singleton in He as ->.
        exists (built acc), item, []. split; [reflexivity|].
        exact (Hfresh _ eq_refl Hnot).
Qed.

(** The invariant holds of what a run returns. *)
Lemma processIssues_loop_ok (data : list SeedIssue) (w : World) acc w' :
  processIssues_loop svc data emptyAcc w = (inr acc, w') -> Tables_ok svc acc.
Proof.
  apply (processIssues_loop_invariant (Tables_ok svc));
    [intros; eapply Tables_ok_step; eassumption|apply Tables_ok_empty].
Qed.

End Aggregator.

(** ** The output tables *)

Lemma marker_of_member (b : bool) (l : list Entry) (x : jsstring) :
  Forall (fun e => hasCommentMarker (entry_id e) = b) l ->
  x ∈ entry_id <$> l -> hasCommentMarker x = b.
Proof.
  intros Hall (e & -> & He)%list_elem_of_fmap.
  rewrite Forall_forall in Hall. exact (Hall e He).
Qed.

(** C1.  In a run that returns, the identifier of every entry built is in
    exactly one table: the comments table and not the issues table when it
    contains "PR" or "IC", the issues table and not the comments table
    otherwise. *)
Theorem entry_in_exactly_one_table (svc : Services) (seeds : list SeedIssue)
    (w : World) (acc : Acc) (w' : World) :
  processIssues_loop svc seeds emptyAcc w = (inr acc, w') ->
  forall item entry, (item, entry) ∈ built acc ->
    if hasCommentMarker (entry_id entry)
    then entry_id entry ∈ entry_id <$> commentDataList acc /\
         entry_id entry ∉ entry_id <$> issueDataList acc
    else entry_id entry ∈ entry_id <$> issueDataList acc /\
         entry_id entry ∉ entry_id <$> commentDataList acc.
Proof.
  intros Hrun item entry Hin.
  destruct (processIssues_loop_ok svc seeds w acc w' Hrun)
    as [_ _ Hmi Hmc _ _ Hpl _ _].
  specialize (Hpl item entry Hin).
  destruct (hasCommentMarker (entry_id entry)) eqn:Hm.
  - split; [exact Hpl|]. intros Hno.
    pose proof (marker_of_member _ _ _ Hmi Hno). congruence.
  - split; [exact Hpl|]. intros Hno.
    pose proof (marker_of_member _ _ _ Hmc Hno). congruence.
Qed.

Lemma entry_in_exactly_one_table_witness :
  let svc := Demo.services [Demo.comment7] Demo.prompt in
  let acc := Demo.final svc [Demo.issue42; Demo.issue43; Demo.issue42] in
  Forall (fun p =>
            if hasCommentMarker (entry_id p.2)
            then entry_id p.2 ∈ entry_id <$> commentDataList acc /\
                 entry_id p.2 ∉ entry_id <$> issueDataList acc
            else entry_id p.2 ∈ entry_id <$> issueDataList acc /\
                 entry_id p.2 ∉ entry_id <$> commentDataList acc)
         (built acc).
Proof.
  intros svc acc. apply Forall_forall. intros [item entry] Hin. cbn [snd].
  apply (entry_in_exactly_one_table svc
           [Demo.issue42; Demo.issue43; Demo.issue42] Demo.world0 acc
           (snd (processIssues_loop svc [Demo.issue42; Demo.issue43; Demo.issue42]
                                    emptyAcc Demo.world0)))
    with (item := item); [vm_compute; reflexivity|exact Hin].
Defined.

(** The rows given to the CSV writer are the two tables of the
    accumulators, row by row and with the same identifiers. *)
Lemma processIssues_rows (svc : Services) (seeds : list SeedIssue) (w : World) :
  processIssues svc seeds w =
  match processIssues_loop svc seeds emptyAcc w with
  | (inr acc, w') =>
      (inr (saveIssuesToCsv svc (issueDataList acc),
            saveCommentsToCsv svc (commentDataList acc)), w')
  | (inl e, w') => (inl e, w')
  end.
Proof. reflexivity. Qed.

Lemma row_identifiers (svc : Services) (l : list Entry) :
  ir_id <$> saveIssuesToCsv svc l = entry_id <$> l /\
  cr_id <$> saveCommentsToCsv svc l = entry_id <$> l.
Proof.
  unfold saveIssuesToCsv, saveCommentsToCsv.
  induction l as [|e r [IHi IHc]]; cbn; [easy|]. now rewrite IHi, IHc.
Qed.

(** Every row of a table was built during the run. *)
Lemma tables_from_history (svc : Services) (seeds : list SeedIssue)
    (w : World) (acc : Acc) (w' : World) :
  processIssues_loop svc seeds emptyAcc w = (inr acc, w') ->
  forall e, e ∈ issueDataList acc \/ e ∈ commentDataList acc ->
    exists item, (item, e) ∈ built acc.
Proof.
  intros Hrun e He.
  destruct (processIssues_loop_ok svc seeds w acc w' Hrun) as [_ _ _ _ _ _ _ Hfst _].
  destruct (Hfst e He) as (pre & it & post & -> & _).
  exists it. apply elem_of_app. right. apply list_elem_of_here.
Qed.

(** An entry whose identifier is already in the set it is routed to is
    dropped: nothing is added and nothing is replaced. *)
Lemma route_seen (item : Item) (entry : Entry) (acc : Acc) :
  item_id item ∈ (if hasCommentMarker (item_id item)
                  then commentIds acc else issueIds acc) ->
  route item entry acc = acc.
Proof.
  unfold route. destruct (hasCommentMarker (item_id item)); intros Hin.
  - destruct (decide (item_id item ∈ commentIds acc)); [reflexivity|contradiction].
  - destruct (decide (item_id item ∈ issueIds acc)); [reflexivity|contradiction].
Qed.

(** C2.  In a run that returns, neither table holds an identifier twice,
    and the entry a table holds for an identifier is the first entry built
    with that identifier; a later entry with an identifier already seen in
    its target set leaves the accumulators as they are. *)
Theorem no_identifier_twice (svc : Services) (seeds : list SeedIssue)
    (w : World) (acc : Acc) (w' : World) :
  processIssues_loop svc seeds emptyAcc w = (inr acc, w') ->
  NoDup (entry_id <$> issueDataList acc) /\
  NoDup (entry_id <$> commentDataList acc) /\
  (forall e, e ∈ issueDataList acc \/ e ∈ commentDataList acc ->
     exists pre it post,
       built acc = pre ++ (it, e) :: post /\
       Forall (fun p => entry_id p.2 <> entry_id e) pre) /\
  (forall item entry acc0,
     item_id item ∈ (if hasCommentMarker (item_id item)
                     then commentIds acc0 else issueIds acc0) ->
     route item entry acc0 = acc0).
Proof.
  intros Hrun.
  destruct (processIssues_loop_ok svc seeds w acc w' Hrun)
    as [_ _ _ _ Hni Hnc _ Hfst _].
  repeat split; try assumption. exact route_seen.
Qed.

Lemma no_identifier_twice_witness :
  let svc := Demo.services [Demo.comment7; Demo.comment7] Demo.prompt in
  let acc := Demo.final svc [Demo.issue42; Demo.issue42] in
  length (built acc) = 12%nat /\
  length (commentDataList acc) = 4%nat /\
  NoDup (entry_id <$> issueDataList acc) /\
  NoDup (entry_id <$> commentDataList acc).
Proof.
  intros svc acc. split; [vm_compute; reflexivity|].
  split; [vm_compute; reflexivity|].
  destruct (no_identifier_twice svc [Demo.issue42; Demo.issue42] Demo.world0 acc
              (snd (processIssues_loop svc [Demo.issue42; Demo.issue42]
                                       emptyAcc Demo.world0)))
    as (Hi & Hc & _); [vm_compute; reflexivity|].
  split; assumption.
Defined.

(** C5.  In a run that returns, every entry built from an item has, as its
    embedding, the first embedding of the service's answer to the
    markup-cleaned text [cleanMarkdown (item text)], and, as its plaintext,
    [cleanText] of that same markup-cleaned text. *)
Theorem embedding_of_markup_cleaned_text (svc : Services)
    (seeds : list SeedIssue) (w : World) (acc : Acc) (w' : World) :
  processIssues_loop svc seeds emptyAcc w = (inr acc, w') ->
  forall item entry, (item, entry) ∈ built acc ->
    let cleanedText := cleanMarkdown (marked svc) (item_text item) in
    (exists response,
       vo_embed svc cleanedText = inr response /\
       entry_embedding entry = firstEmbedding response) /\
    entry_plaintext entry = cleanText (Some cleanedText).
Proof.
  intros Hrun item entry Hin cleanedText.
  destruct (processIssues_loop_ok svc seeds w acc w' Hrun) as [_ _ _ _ _ _ _ _ Hh].
  rewrite Forall_forall in Hh.
  destruct (Hh _ Hin) as (iss & response & a & c & m & Hresp & _ & Hentry).
  cbn [fst snd] in *. subst entry. split; [|reflexivity]. now exists response.
Qed.

Lemma embedding_of_markup_cleaned_text_witness :
  let svc := Demo.services [Demo.comment7] Demo.prompt in
  let acc := Demo.final svc [Demo.issue42] in
  Forall (fun p =>
            (exists response,
               vo_embed svc (cleanMarkdown (marked svc) (item_text p.1))
               = inr response /\
               entry_embedding p.2 = firstEmbedding response) /\
            entry_plaintext p.2
            = cleanText (Some (cleanMarkdown (marked svc) (item_text p.1))))
         (built acc).
Proof.
  intros svc acc. apply Forall_forall. intros [item entry] Hin. cbn [fst snd].
  apply (embedding_of_markup_cleaned_text svc [Demo.issue42] Demo.world0 acc
           (snd (processIssues_loop svc [Demo.issue42] emptyAcc Demo.world0)));
    [vm_compute; reflexivity|exact Hin].
Defined.

Lemma await_run {A} (svc : Services) (r : Request) (answer : Error + A) (w : World) :
  await svc r answer w =
  (match answer with inr a => inr a | inl e => inl (Thrown e) end,
   afterRequest svc r w).
Proof.
  unfold await, afterRequest. rewrite bind_run. cbn [emit]. rewrite bind_run.
  cbn [suspend]. destruct answer; reflexivity.
Qed.

Lemma extractEmbeddings_run (svc : Services) (text : jsstring) (w : World) :
  extractEmbeddings svc text w =
  (match vo_embed svc text with
   | inr response => inr (firstEmbedding response)
   | inl e => inl (Thrown e)
   end,
   afterRequest svc (VoyageEmbed text) w).
Proof.
  unfold extractEmbeddings. rewrite bind_run, await_run.
  destruct (vo_embed svc text); reflexivity.
Qed.

Lemma getCurrentTimestamp_run (svc : Services) (w : World) :
  getCurrentTimestamp svc w =
  (inr (Date_toISOString svc (reads w)),
   {| trace := trace w; awaits := awaits w; reads := S (reads w);
      allData := allData w; pending := pending w |}).
Proof. reflexivity. Qed.

(** The request the adapter sends carries the text it is given. *)
Lemma extractEmbeddings_request (svc : Services) (text : jsstring) (w : World) :
  trace (snd (extractEmbeddings svc text w)) = trace w ++ [Sent (VoyageEmbed text)].
Proof. rewrite extractEmbeddings_run. reflexivity. Qed.

Lemma fetchAuthorId_trace (svc : Services) (login : jsstring) (w : World) :
  exists id w1 later,
    fetchAuthorId svc login w = (inr id, w1) /\
    trace w1 = trace w ++ Sent (UsersGet login) :: later.
Proof.
  unfold fetchAuthorId, try_catch. rewrite await_run.
  destruct (users_get svc login) as [e|id].
  - rewrite bind_run. cbn [emit mret M_ret].
    eexists _, _, _. split; [reflexivity|].
    cbn [trace afterRequest suspend emit snd]. now rewrite <- app_assoc.
  - eexists _, _, []. split; reflexivity.
Qed.

(** The first thing the loop body does to the outside is to send the
    markup-cleaned text of the item to the embedding service. *)
Lemma processItem_first_request (svc : Services) (iss : SeedIssue) (item : Item)
    (acc : Acc) (w : World) :
  exists later,
    trace (snd (processItem svc iss item acc w))
    = trace w ++
      Sent (VoyageEmbed (cleanMarkdown (marked svc) (item_text item))) :: later.
Proof.
  unfold processItem.
  rewrite (bind_run (extractEmbeddings svc _)), extractEmbeddings_run.
  destruct (vo_embed svc _) as [e|response]; [now exists []|].
  rewrite (bind_run (fetchAuthorId svc _)).
  match goal with |- context [fetchAuthorId svc ?l ?w0] =>
    destruct (fetchAuthorId_trace svc l w0) as (id & w1 & later & -> & Htrace)
  end.
  rewrite (bind_run (getCurrentTimestamp svc)), getCurrentTimestamp_run.
  rewrite (bind_run (getCurrentTimestamp svc)), getCurrentTimestamp_run.
  cbn [mret M_ret snd trace]. rewrite Htrace.
  cbn [trace afterRequest suspend emit snd]. rewrite <- app_assoc.
  eexists. reflexivity.
Qed.

(** C6, as the specification states it, fails: the text of comment 7 of
    the demo repository (a space, the word hi between double quotes, an
    e with an acute accent) is stored with its quotes doubled and without
    its last character. *)
Lemma markdown_is_not_the_raw_text :
  ~ (forall (svc : Services) (seeds : list SeedIssue) (w : World) acc w',
       processIssues_loop svc seeds emptyAcc w = (inr acc, w') ->
       forall item entry, (item, entry) ∈ built acc ->
         item_text item = Some (entry_markdown entry)).
Proof.
  intros H.
  pose (svc := Demo.services [Demo.comment7] Demo.prompt).
  assert (Hrun : processIssues_loop svc [Demo.issue42] emptyAcc Demo.world0
                 = (inr (Demo.final svc [Demo.issue42]),
                    snd (processIssues_loop svc [Demo.issue42] emptyAcc Demo.world0)))
    by (vm_compute; reflexivity).
  destruct (built (Demo.final svc [Demo.issue42]) !! 1%nat) as [[item entry]|] eqn:Hb;
    [|vm_compute in Hb; discriminate].
  pose proof (H _ _ _ _ _ Hrun item entry (list_elem_of_lookup_2 _ _ _ Hb)) as Heq.
  vm_compute in Hb. injection Hb as <- <-. vm_compute in Heq. discriminate.
Qed.

(** C6, amended.  In a run that returns, the markdown field of every entry
    built from an item is [cleanText] of the item's raw text; it is the raw
    text itself when that text has no double quote and no character outside
    printable ASCII and whitespace. *)
Theorem markdown_is_cleaned_raw_text (svc : Services) (seeds : list SeedIssue)
    (w : World) (acc : Acc) (w' : World) :
  processIssues_loop svc seeds emptyAcc w = (inr acc, w') ->
  forall item entry, (item, entry) ∈ built acc ->
    entry_markdown entry = cleanText (item_text item) /\
    (forall t, item_text item = Some t ->
               Forall (fun c => kept c = true /\ c <> QUOTE) t ->
               entry_markdown entry = t).
Proof.
  intros Hrun item entry Hin.
  destruct (processIssues_loop_ok svc seeds w acc w' Hrun) as [_ _ _ _ _ _ _ _ Hh].
  rewrite Forall_forall in Hh.
  destruct (Hh _ Hin) as (iss & response & a & c & m & _ & _ & Hentry).
  cbn [fst snd] in *. subst entry. split; [reflexivity|].
  intros t Ht Hclean. cbn [makeEntry entry_markdown]. rewrite Ht.
  now apply cleanText_fixed.
Qed.

Lemma markdown_is_cleaned_raw_text_witness :
  let svc := Demo.services [Demo.comment7] Demo.prompt in
  let acc := Demo.final svc [Demo.issue42] in
  exists item entry,
    built acc !! 0%nat = Some (item, entry) /\
    entry_markdown entry = cleanText (item_text item) /\
    entry_markdown entry = lit "Fix the bug".
Proof.
  intros svc acc.
  destruct (built acc !! 0%nat) as [[item entry]|] eqn:Hb;
    [|vm_compute in Hb; discriminate].
  exists item, entry. split; [reflexivity|].
  destruct (markdown_is_cleaned_raw_text svc [Demo.issue42] Demo.world0 acc
              (snd (processIssues_loop svc [Demo.issue42] emptyAcc Demo.world0))
              ltac:(vm_compute; reflexivity)
              item entry (list_elem_of_lookup_2 _ _ _ Hb)) as [Hclean Hsame].
  split; [exact Hclean|]. apply Hsame.
  - vm_compute in Hb. now injection Hb as <- _.
  - vm_compute. repeat constructor; discriminate.
Defined.

(** ** Skipped issues, the author lookup and empty embeddings *)

(** C7.  A seed issue whose body is [null] or the empty string only adds two
    messages to the console: no request is sent for it, the accumulators
    are passed unchanged to the rest of the run, which goes on with the
    next seed issue; run alone, it yields two empty tables. *)
Theorem empty_body_issue_skipped (svc : Services) (issue : SeedIssue)
    (rest : list SeedIssue) (acc : Acc) (w : World) :
  body issue = None \/ body issue = Some [] ->
  processIssues_loop svc (issue :: rest) acc w
  = processIssues_loop svc rest acc (skipped issue w) /\
  processIssues svc [issue] w = (inr ([], []), skipped issue w).
Proof.
  intros Hbody.
  assert (Hf : falsy (body issue) = true) by (destruct Hbody as [->| ->]; reflexivity).
  assert (Hloop : forall rest acc,
            processIssues_loop svc (issue :: rest) acc w
            = processIssues_loop svc rest acc (skipped issue w)).
  { intros rest0 acc0. cbn [processIssues_loop]. rewrite Hf.
    rewrite bind_run. cbn [console_log emit]. rewrite bind_run.
    cbn [console_log emit trace awaits reads allData pending].
    unfold skipped. now rewrite <- app_assoc. }
  split; [apply Hloop|].
  unfold processIssues. rewrite bind_run, Hloop. reflexivity.
Qed.

Lemma empty_body_issue_skipped_witness :
  let svc := Demo.services [Demo.comment7] Demo.prompt in
  processIssues_loop svc [Demo.issue43; Demo.issue42] emptyAcc Demo.world0
  = processIssues_loop svc [Demo.issue42] emptyAcc (skipped Demo.issue43 Demo.world0) /\
  processIssues svc [Demo.issue43] Demo.world0
  = (inr ([], []), skipped Demo.issue43 Demo.world0).
Proof.
  intros svc.
  apply (empty_body_issue_skipped svc Demo.issue43 [Demo.issue42] emptyAcc Demo.world0).
  left. reflexivity.
Defined.

(** C8.  [fetchAuthorId] always returns: the [id] of the answer when the
    lookup succeeds, and -1, after one message on the error console, when
    the lookup is rejected. *)
Theorem fetchAuthorId_sentinel (svc : Services) (userLogin : jsstring) (w : World) :
  fetchAuthorId svc userLogin w =
  match users_get svc userLogin with
  | inr id => (inr id, afterRequest svc (UsersGet userLogin) w)
  | inl e =>
      (inr (-1)%Z,
       snd (emit (ConsoleError
                    (lit "Error fetching author ID for " ++ userLogin ++ lit ":")
                    (Thrown e))
                 (afterRequest svc (UsersGet userLogin) w)))
  end.
Proof.
  unfold fetchAuthorId, try_catch. rewrite await_run.
  destruct (users_get svc userLogin); reflexivity.
Qed.

Example fetchAuthorId_alice_and_carol :
  let svc := Demo.services [] Demo.prompt in
  fst (fetchAuthorId svc (lit "alice") Demo.world0) = inr 1%Z /\
  fst (fetchAuthorId svc (lit "carol") Demo.world0) = inr (-1)%Z /\
  trace (snd (fetchAuthorId svc (lit "carol") Demo.world0))
  = [ Sent (UsersGet (lit "carol"));
      ConsoleError (lit "Error fetching author ID for carol:") (Thrown Demo.offline) ].
Proof. repeat split. Qed.

(** The answers for which [extractEmbeddings] yields the empty vector. *)
Lemma firstEmbedding_empty (response : EmbedResponse) :
  firstEmbedding response = [] <->
  data response = None \/ data response = Some [] \/
  exists first others,
    data response = Some (first :: others) /\
    (embedding first = None \/ embedding first = Some []).
Proof.
  unfold firstEmbedding. destruct (data response) as [[|first others]|].
  - split; [now right; left|reflexivity].
  - destruct (embedding first) as [e|] eqn:He; split.
    + intros ->. right. right. exists first, others. rewrite He. now split; [|right].
    + intros [?|[?|(f & o & [= <- <-] & [Hn|Hs])]]; try discriminate; congruence.
    + intros _. right. right. exists first, others. rewrite He. now split; [|left].
    + reflexivity.
  - split; [now left|reflexivity].
Qed.

Lemma formatEmbedding_empty (svc : Services) : formatEmbedding svc [] = lit "[]".
Proof. reflexivity. Qed.

Example formatEmbedding_three :
  formatEmbedding (Demo.services [] Demo.prompt) [1%float; 2%float; 2%float]
  = lit "[1, 2, 2]".
Proof. reflexivity. Qed.

(** C10.  When the service answers but its answer holds no embedding, the
    loop body still returns: it builds an entry with the empty vector,
    which both row mappers render as "[]", and it appends that entry to the
    table of its kind unless its identifier is already there, exactly as
    for any other entry. *)
Theorem empty_embedding_keeps_item (svc : Services) (iss : SeedIssue)
    (item : Item) (acc : Acc) (w : World) (response : EmbedResponse) :
  vo_embed svc (cleanMarkdown (marked svc) (item_text item)) = inr response ->
  firstEmbedding response = [] ->
  exists entry w',
    processItem svc iss item acc w
    = (inr (route item entry (record item entry acc)), w') /\
    entry_id entry = item_id item /\
    entry_embedding entry = [] /\
    ir_embedding (issueRow svc entry) = lit "[]" /\
    cr_embedding (commentRow svc entry) = lit "[]" /\
    (hasCommentMarker (item_id item) = true ->
     item_id item ∉ commentIds acc ->
     commentDataList (route item entry (record item entry acc))
     = commentDataList acc ++ [entry]) /\
    (hasCommentMarker (item_id item) = false ->
     item_id item ∉ issueIds acc ->
     issueDataList (route item entry (record item entry acc))
     = issueDataList acc ++ [entry]).
Proof.
  intros Hresp Hempty.
  unfold processItem.
  rewrite (bind_run (extractEmbeddings svc _)), extractEmbeddings_run, Hresp, Hempty.
  rewrite (bind_run (fetchAuthorId svc _)).
  match goal with |- context [fetchAuthorId svc ?l ?w0] =>
    destruct (total_fetchAuthorId svc l w0) as (authorId & w1 & ->)
  end.
  rewrite (bind_run (getCurrentTimestamp svc)), getCurrentTimestamp_run.
  rewrite (bind_run (getCurrentTimestamp svc)), getCurrentTimestamp_run.
  cbn [mret M_ret].
  eexists _, _. split; [reflexivity|].
  split; [reflexivity|]. split; [reflexivity|].
  split; [reflexivity|]. split; [reflexivity|].
  unfold route, record. cbn [commentIds issueIds commentDataList issueDataList].
  split; intros -> Hnew.
  - destruct (decide (item_id item ∈ commentIds acc)); [contradiction|reflexivity].
  - destruct (decide (item_id item ∈ issueIds acc)); [contradiction|reflexivity].
Qed.

Lemma empty_embedding_keeps_item_witness :
  let svc := Demo.services [Demo.comment7] Demo.prompt in
  let item := prCommentItem Demo.issue42 Demo.node9 Demo.pull9
                {| gc_id := lit "IC_10"; gc_body := lit "LGTM";
                   gc_author_login := lit "bob" |} in
  exists entry w',
    processItem svc Demo.issue42 item emptyAcc Demo.world0
    = (inr (route item entry (record item entry emptyAcc)), w') /\
    entry_id entry = lit "IC_10" /\
    cr_embedding (commentRow svc entry) = lit "[]" /\
    commentDataList (route item entry (record item entry emptyAcc)) = [entry].
Proof.
  intros svc item.
  destruct (empty_embedding_keeps_item svc Demo.issue42 item emptyAcc Demo.world0
              {| data := None |})
    as (entry & w' & Hrun & Hid & _ & _ & Hrow & Hc & _);
    [vm_compute; reflexivity|vm_compute; reflexivity|].
  exists entry, w'. split; [exact Hrun|]. split; [exact Hid|].
  split; [exact Hrow|]. apply Hc; [vm_compute; reflexivity|].
  apply not_elem_of_empty.
Defined.

(** ** The fetcher: order of the items *)

Lemma foldl_push {A B} (f : B -> A) (xs : list B) (acc : list A) :
  foldl (fun acc x => acc ++ [f x]) acc xs = acc ++ (f <$> xs).
Proof.
  revert acc. induction xs as [|x r IH]; intros acc; cbn [foldl fmap list_fmap].
  - now rewrite app_nil_r.
  - rewrite IH, <- app_assoc. reflexivity.
Qed.

Lemma foldl_push_threads {A B} (f : B -> A) (threads : list (list B)) (acc : list A) :
  foldl (fun acc thread => foldl (fun acc x => acc ++ [f x]) acc thread) acc threads
  = acc ++ (f <$> concat threads).
Proof.
  revert acc. induction threads as [|t r IH]; intros acc; cbn [foldl concat].
  - now rewrite app_nil_r.
  - rewrite IH, foldl_push, fmap_app, app_assoc. reflexivity.
Qed.

(** [fetchPrData] yields the body of the pull request, then its comments,
    then its review-thread comments, whatever the event loop does: its
    callbacks never suspend. *)
Lemma fetchPrData_run (svc : Services) (iss : SeedIssue) (pr : RestPR) (w : World) :
  fetchPrData svc iss pr w =
  (match graphql_node svc (pr_node_id pr) with
   | inr graphqlData =>
       inr (prItem iss graphqlData pr ::
            (prCommentItem iss graphqlData pr <$> gql_comments graphqlData) ++
            (prCommentItem iss graphqlData pr <$> concat (gql_reviewThreads graphqlData)))
   | inl e => inl (Thrown e)
   end,
   afterRequest svc (GraphqlNode (pr_node_id pr)) w).
Proof.
  unfold fetchPrData, fetchPrDataGraphql. rewrite bind_run, await_run.
  destruct (graphql_node svc (pr_node_id pr)) as [e|g]; [reflexivity|].
  cbn [mret M_ret]. now rewrite foldl_push_threads, foldl_push, <- app_assoc.
Qed.

Lemma deliver_nil (ns : list nat) (arr : list Item) : deliver ns arr [] = (arr, []).
Proof. induction ns as [|n ns IH]; [reflexivity|exact IH]. Qed.

Lemma deliver_oldest_first (n : nat) (arr pend : list Item) :
  (length pend <= n)%nat -> deliver (repeat 0%nat n) arr pend = (arr ++ pend, []).
Proof.
  revert arr pend. induction n as [|n IH]; intros arr [|it pend] Hlen;
    cbn [length] in Hlen; try lia.
  - now rewrite app_nil_r.
  - now rewrite deliver_nil, app_nil_r.
  - cbn [repeat deliver lookup list_lookup delete list_delete].
    rewrite IH by lia. now rewrite <- app_assoc.
Qed.

Lemma deliver_Forall (P : Item -> Prop) (ns : list nat) (arr pend : list Item) :
  Forall P (arr ++ pend) ->
  Forall P ((deliver ns arr pend).1 ++ (deliver ns arr pend).2).
Proof.
  revert arr pend. induction ns as [|n ns IH]; intros arr pend Hall; [exact Hall|].
  cbn [deliver]. destruct (pend !! n) as [it|] eqn:Hn; [|now apply IH].
  apply IH. apply Forall_app in Hall as [Harr Hpend].
  rewrite <- app_assoc. apply Forall_app. split; [exact Harr|].
  apply Forall_app. split.
  - repeat constructor. rewrite Forall_forall in Hpend.
    apply Hpend. exact (list_elem_of_lookup_2 _ _ _ Hn).
  - now apply Forall_delete.
Qed.

Lemma commentItems_length (svc : Services) (iss : SeedIssue)
    (comments : list RestComment) :
  (length (commentItems svc iss comments) <= length comments)%nat.
Proof.
  unfold commentItems. induction comments as [|c cs IH]; [cbn; lia|].
  rewrite bind_cons, length_app. cbn [length].
  destruct (issues_getComment _ _ _ _); cbn in *; lia.
Qed.

(** The callbacks send their requests and leave their pushes pending; the
    array is not touched and the main flow is not suspended. *)
Lemma callbacks_run (svc : Services) (iss : SeedIssue)
    (comments : list RestComment) (w : World) :
  exists w1,
    forEachM (issueCommentCallback svc iss) comments w = (inr tt, w1) /\
    awaits w1 = awaits w /\ allData w1 = allData w /\
    pending w1 = pending w ++ commentItems svc iss comments.
Proof.
  revert w. induction comments as [|c r IH]; intros w.
  - exists w. cbn. now rewrite app_nil_r.
  - cbn [forEachM]. rewrite bind_run.
    unfold issueCommentCallback at 1, commentItems.
    destruct (ownerRepo iss) as [o rp] eqn:Hor. rewrite bind_run. cbn [emit fst snd].
    rewrite bind_cons.
    destruct (issues_getComment svc o rp (rc_id c)) as [e|payload];
      cbn [defer emit answered];
      match goal with |- context [forEachM _ r ?w0] =>
        destruct (IH w0) as (w1 & -> & Ha & Hd & Hp)
      end;
      exists w1; (split; [reflexivity|]); cbn in Ha, Hd, Hp;
      (split; [exact Ha|]); (split; [exact Hd|]); rewrite Hp;
      unfold commentItems; rewrite Hor; cbn [fst snd].
    + reflexivity.
    + now rewrite <- app_assoc.
Qed.

(** With nothing pending, the pull requests are appended one after the
    other. *)
Lemma pull_requests_run (svc : Services) (iss : SeedIssue) (prs : list RestPR)
    (w w' : World) :
  pending w = [] ->
  forEachM (fun pr => prData ← fetchPrData svc iss pr; pushAll prData) prs w
  = (inr tt, w') ->
  pending w' = [] /\ allData w' = allData w ++ pullRequestItems svc iss prs.
Proof.
  revert w. induction prs as [|pr r IH]; intros w Hpend.
  - intros [= <-]. split; [exact Hpend|]. cbn. now rewrite app_nil_r.
  - cbn [forEachM]. rewrite bind_run, bind_run, fetchPrData_run.
    unfold pullRequestItems. rewrite bind_cons.
    destruct (graphql_node svc (pr_node_id pr)) as [e|g]; [discriminate|].
    cbn [pushAll answered]. intros Hrun. apply IH in Hrun as [Hp Hd].
    + split; [exact Hp|]. rewrite Hd. cbn [allData afterRequest suspend emit snd].
      cbn [pending trace awaits reads allData]. rewrite Hpend, deliver_nil.
      cbn [fst]. rewrite <- app_assoc. f_equal.
      unfold pullRequestItems. cbn. now rewrite app_nil_r.
    + cbn [pending afterRequest suspend emit snd].
      cbn [pending trace awaits reads allData]. now rewrite Hpend, deliver_nil.
Qed.

(** X25.  When the event loop completes every pending push, oldest first,
    while the list of pull requests is awaited (the third suspension of
    [fetchAllRelatedData]), the array returned has the order the
    specification gives, and nothing is left pending. *)
Lemma fetchAllRelatedData_prompt (svc : Services) (iss : SeedIssue)
    (w w' : World) (n : nat) :
  completes svc (S (S (awaits w))) = repeat 0%nat n ->
  (forall comments,
     issues_listComments svc (ownerRepo iss).1 (ownerRepo iss).2 (number iss)
     = inr comments -> (length comments <= n)%nat) ->
  fetchAllRelatedData svc iss w = (inr tt, w') ->
  allData w' = fetchOrder svc iss /\ pending w' = [].
Proof.
  intros Hloop Hn. unfold fetchOrder.
  unfold fetchAllRelatedData, fetchPayloadIssue, fetchIssueComments,
    fetchAssociatedPRs.
  destruct (ownerRepo iss) as [o r] eqn:Hor. cbn [fst snd] in *.
  rewrite bind_run, await_run.
  destruct (issues_get svc o r (number iss)) as [e|payload]; [discriminate|].
  rewrite bind_run. cbn [newArray]. rewrite bind_run, await_run.
  destruct (issues_listComments svc o r (number iss)) as [e|comments] eqn:Hlist;
    [discriminate|].
  specialize (Hn comments eq_refl).
  rewrite bind_run.
  match goal with |- context [forEachM _ comments ?w0] =>
    destruct (callbacks_run svc iss comments w0) as (w1 & -> & Ha & Hd & Hp)
  end.
  cbn in Ha, Hd, Hp. rewrite deliver_nil in Hd, Hp. cbn in Hd, Hp.
  rewrite bind_run, bind_run, await_run.
  destruct (pulls_list svc o r) as [e|prs]; [discriminate|].
  cbn [mret M_ret]. intros Hrun.
  apply pull_requests_run in Hrun as [Hpend Hdata].
  - split; [|exact Hpend]. rewrite Hdata.
    cbn [allData afterRequest suspend emit snd].
    cbn [pending trace awaits reads allData]. rewrite Ha, Hd, Hp, Hloop.
    rewrite deliver_oldest_first
      by (etransitivity; [apply commentItems_length|exact Hn]).
    cbn. now rewrite !app_nil_r.
  - cbn [pending afterRequest suspend emit snd].
    cbn [pending trace awaits reads allData]. rewrite Ha, Hd, Hp, Hloop.
    now rewrite deliver_oldest_first
      by (etransitivity; [apply commentItems_length|exact Hn]).
Qed.

Lemma preserves_bind_returns {A B} Inv (m : M A) (f : A -> M B) (R : A -> Prop) :
  preserves Inv m -> returns m R -> (forall a, R a -> preserves Inv (f a)) ->
  preserves Inv (m ≫= f).
Proof.
  intros Hm Hr Hf w Hw. rewrite bind_run.
  destruct (Hm w Hw) as [Hw1 Hne].
  destruct (m w) as [[e|a] w1] eqn:Hrun; [|exact (Hf a (Hr _ _ _ Hrun) w1 Hw1)].
  split; [exact Hw1|]. cbn [fst] in *. intros [= ->]. now apply Hne.
Qed.

(** X26.  Every item of the array, pushed or pending, carries the node
    identifier of the seed issue, whatever the event loop does. *)
Lemma fetchAllRelatedData_issue_id (svc : Services) (iss : SeedIssue) (w w' : World) :
  fetchAllRelatedData svc iss w = (inr tt, w') ->
  Forall (fun it => item_issue_id it = node_id iss) (allData w' ++ pending w').
Proof.
  set (P := fun it => item_issue_id it = node_id iss).
  set (Inv := fun w0 : World => Forall P (allData w0 ++ pending w0)).
  assert (Ha : forall A r (answer : Error + A), preserves Inv (await svc r answer)).
  { intros A r answer. apply preserves_await; intros w0 Hw0; [exact Hw0|].
    apply deliver_Forall, Hw0. }
  unfold fetchAllRelatedData, fetchPayloadIssue.
  destruct (ownerRepo iss) as [o r] eqn:Hor.
  rewrite bind_run, await_run.
  destruct (issues_get svc o r (number iss)) as [e|payload]; [discriminate|].
  rewrite bind_run. cbn [newArray].
  match goal with |- ?rest ?w0 = _ -> _ =>
    assert (Hrest : preserves Inv rest); [|intros Hrun;
      assert (Hw0 : Inv w0) by (repeat constructor);
      destruct (Hrest w0 Hw0) as [Hinv _]; rewrite Hrun in Hinv; exact Hinv]
  end.
  apply preserves_bind.
  { unfold fetchIssueComments. rewrite Hor. apply Ha. }
  intros issueComments. apply preserves_bind.
  { apply preserves_forEachM. intros comment. unfold issueCommentCallback.
    rewrite Hor. apply preserves_bind; [now apply preserves_emit|intros _].
    destruct (issues_getComment svc o r (rc_id comment)) as [e|p];
      [now apply preserves_emit|].
    intros w0 Hw0. split; [|discriminate]. unfold Inv, defer. cbn [snd allData pending].
    rewrite app_assoc. apply Forall_app. split; [exact Hw0|now repeat constructor]. }
  intros _. apply preserves_bind.
  { unfold fetchAssociatedPRs. rewrite Hor.
    apply preserves_bind; [apply Ha|intros; apply preserves_ret]. }
  intros associatedPRs. apply preserves_forEachM. intros pr.
  apply (preserves_bind_returns _ _ _ (Forall P)).
  - unfold fetchPrData, fetchPrDataGraphql.
    apply preserves_bind; [apply Ha|intros; apply preserves_ret].
  - intros w0 prData w1. rewrite fetchPrData_run.
    destruct (graphql_node svc (pr_node_id pr)) as [e|g]; [discriminate|].
    intros [= <- _]. constructor; [reflexivity|].
    apply Forall_app. split; apply Forall_fmap, Forall_forall; now intros.
  - intros prData HprData w0 Hw0. split; [|discriminate].
    unfold Inv, pushAll. cbn [snd allData pending].
    apply Forall_app in Hw0 as [Hd Hp].
    rewrite <- app_assoc. apply Forall_app. split; [exact Hd|].
    apply Forall_app. now split.
Qed.

(** X27.  The tables list their entries in the order in which they were
    built: each table is the history with some entries left out. *)
Lemma tables_in_build_order (svc : Services) (seeds : list SeedIssue)
    (w : World) (acc : Acc) (w' : World) :
  processIssues_loop svc seeds emptyAcc w = (inr acc, w') ->
  issueDataList acc `sublist_of` (snd <$> built acc) /\
  commentDataList acc `sublist_of` (snd <$> built acc).
Proof.
  apply (processIssues_loop_invariant svc
           (fun acc => issueDataList acc `sublist_of` (snd <$> built acc) /\
                       commentDataList acc `sublist_of` (snd <$> built acc))).
  - intros iss item entry acc0 [Hi Hc] _. unfold route, record.
    cbn [issueIds commentIds issueDataList commentDataList built].
    destruct (hasCommentMarker (item_id item));
      [destruct (decide (item_id item ∈ commentIds acc0))
      |destruct (decide (item_id item ∈ issueIds acc0))];
      cbn [issueDataList commentDataList built]; rewrite fmap_app; cbn [fmap list_fmap snd];
      split;
      solve [ now apply sublist_inserts_r
            | apply sublist_app; [assumption|reflexivity] ].
  - split; constructor.
Qed.

(** C3.  The order of the items of one seed issue depends on the event
    loop.  For issue 42 of the demo repository, with one comment (IC_7) and
    one pull request (PR_9, with comments IC_10 and PRRC_11):
    - when the answer about the comment arrives while the pull requests
      are listed, the array is in the order the specification gives;
    - when it arrives only while the first item is being embedded, the
      array [fetchAllRelatedData] returns lacks the comment, which is
      visited last and ends the comments table;
    - when it arrives after the loop over the array is over, the comment is
      in no table;
    - of two comments, the one answered first is pushed first. *)
Theorem fetch_order_depends_on_event_loop :
  let fetched (svc : Services) :=
    allData (snd (fetchAllRelatedData svc Demo.issue42 Demo.world0)) in
  let table (svc : Services) :=
    entry_id <$> commentDataList (Demo.final svc [Demo.issue42]) in
  let prompt := Demo.services [Demo.comment7] Demo.prompt in
  let late := Demo.services [Demo.comment7] Demo.late in
  let never := Demo.services [Demo.comment7] Demo.never in
  let swapped := Demo.services [Demo.comment7; Demo.comment8] Demo.swapped in
  (fetched prompt = fetchOrder prompt Demo.issue42 /\
   item_id <$> fetched prompt
   = [lit "I_1"; lit "IC_7"; lit "PR_9"; lit "IC_10"; lit "PRRC_11"]) /\
  (fetched late <> fetchOrder late Demo.issue42 /\
   item_id <$> fetched late = [lit "I_1"; lit "PR_9"; lit "IC_10"; lit "PRRC_11"] /\
   table late = [lit "PR_9"; lit "IC_10"; lit "PRRC_11"; lit "IC_7"]) /\
  table never = [lit "PR_9"; lit "IC_10"; lit "PRRC_11"] /\
  (fetched swapped <> fetchOrder swapped Demo.issue42 /\
   item_id <$> fetched swapped
   = [lit "I_1"; lit "IC_8"; lit "IC_7"; lit "PR_9"; lit "IC_10"; lit "PRRC_11"]).
Proof.
  cbv zeta. repeat split; try (vm_compute; reflexivity);
    intros H; vm_compute in H; discriminate H.
Qed.

(** * Further properties of the code *)

(** ** Substring tests *)

Lemma startsWith_spec (p s : jsstring) :
  startsWith p s = true <-> exists post, s = p ++ post.
Proof.
  revert s. induction p as [|a p IH]; intros s.
  - split; [intros _; now exists s|reflexivity].
  - destruct s as [|b s]; cbn [startsWith].
    + split; [discriminate|intros [post Hs]; discriminate Hs].
    + rewrite andb_true_iff, N.eqb_eq, IH. split.
      * intros [-> [post ->]]. now exists post.
      * intros [post [= -> ->]]. split; [reflexivity|now exists post].
Qed.

(** [includes] is the substring test. *)
Lemma includes_spec (s w : jsstring) :
  includes s w = true <-> exists pre post, s = pre ++ w ++ post.
Proof.
  induction s as [|c s IH].
  - cbn [includes]. rewrite orb_false_r, startsWith_spec. split.
    + intros [post Hs]. now exists [], post.
    + intros (pre & post & Hs). destruct pre; [now exists post|discriminate Hs].
  - cbn [includes]. rewrite orb_true_iff, startsWith_spec, IH. split.
    + intros [[post Hs]|(pre & post & ->)].
      * now exists [], post.
      * now exists (c :: pre), post.
    + intros ([|d pre] & post & Hs).
      * left. now exists post.
      * right. injection Hs as -> ->. now exists pre, post.
Qed.

Lemma includes_false (s w : jsstring) :
  includes s w = false <-> forall pre post, s <> pre ++ w ++ post.
Proof.
  rewrite <- not_true_iff_false, includes_spec. split.
  - intros H pre post Hs. apply H. now exists pre, post.
  - intros H (pre & post & Hs). exact (H pre post Hs).
Qed.

(** X1.  Whatever the text, the result of [removeSpecificWords] contains
    none of the four phrases. *)
Theorem removeSpecificWords_phrase_free (t word pre post : jsstring) :
  word ∈ words -> removeSpecificWords t <> pre ++ word ++ post.
Proof.
  intros Hword. unfold removeSpecificWords.
  destruct (existsb (fun word => includes t word) words) eqn:Hany.
  - intros Hnil. symmetry in Hnil.
    apply app_eq_nil in Hnil as [_ [Hw _]%app_eq_nil]. subst word.
    revert Hword. unfold words. rewrite !elem_of_cons, elem_of_nil.
    intros [H|[H|[H|[H|[]]]]]; discriminate H.
  - intros Ht.
    assert (Hin : includes t word = true) by (apply includes_spec; eauto).
    assert (Hex : existsb (fun word => includes t word) words = true).
    { apply existsb_exists. exists word. split; [|exact Hin].
      now apply list_elem_of_In. }
    congruence.
Qed.

Lemma removeSpecificWords_phrase_free_witness :
  removeSpecificWords (lit "ok /stop now") <> lit "ok " ++ lit "/stop" ++ lit " now".
Proof.
  apply removeSpecificWords_phrase_free.
  unfold words. apply list_elem_of_further, list_elem_of_here.
Defined.

(** X2.  [removeSpecificWords] blanks a text exactly when the text is empty
    or one of the four phrases occurs somewhere in it, be it inside a
    longer word. *)
Theorem removeSpecificWords_blank_iff (t : jsstring) :
  removeSpecificWords t = [] <->
  t = [] \/ exists word pre post, word ∈ words /\ t = pre ++ word ++ post.
Proof.
  unfold removeSpecificWords.
  destruct (existsb (fun word => includes t word) words) eqn:Hany.
  - split; [intros _; right|reflexivity].
    apply existsb_exists in Hany as (word & Hword & Hin).
    apply includes_spec in Hin as (pre & post & Ht).
    exists word, pre, post. split; [now apply list_elem_of_In|exact Ht].
  - split; [now left|]. intros [Ht|(word & pre & post & Hword & Ht)]; [exact Ht|].
    assert (Hex : existsb (fun word => includes t word) words = true).
    { apply existsb_exists. exists word. split; [now apply list_elem_of_In|].
      apply includes_spec. eauto. }
    congruence.
Qed.

(** X3.  The marker test of the aggregator looks anywhere in the
    identifier: an identifier is classified as a comment exactly when "PR"
    or "IC" occurs somewhere in it. *)
Theorem hasCommentMarker_iff (id : jsstring) :
  hasCommentMarker id = true <->
  exists pre post, id = pre ++ lit "PR" ++ post \/ id = pre ++ lit "IC" ++ post.
Proof.
  unfold hasCommentMarker. rewrite orb_true_iff, !includes_spec. split.
  - intros [(pre & post & H)|(pre & post & H)]; exists pre, post; tauto.
  - intros (pre & post & [H|H]); [left|right]; now exists pre, post.
Qed.

(** X4.  A pull request is associated with a seed issue exactly when its
    body is a non-empty string in which "#" followed by the issue number,
    or the issue's [html_url], occurs somewhere; what follows the number is
    not looked at. *)
Theorem mentions_iff (iss : SeedIssue) (pr : RestPR) :
  mentions iss pr = true <->
  exists b, pr_body pr = Some b /\ b <> [] /\
    exists pre post,
      b = pre ++ (lit "#" ++ showN (number iss)) ++ post \/
      b = pre ++ html_url iss ++ post.
Proof.
  unfold mentions. destruct (pr_body pr) as [b|].
  - rewrite andb_true_iff, orb_true_iff, !includes_spec. split.
    + intros [Hb Hin]. exists b. split; [reflexivity|].
      split; [now destruct b|].
      destruct Hin as [(pre & post & H)|(pre & post & H)]; exists pre, post; tauto.
    + intros (b' & [= <-] & Hne & pre & post & H). split; [now destruct b|].
      destruct H as [H|H]; [left|right]; now exists pre, post.
  - split; [discriminate|]. now intros (b & Hb & _).
Qed.

(** ** More on the text normaliser *)

Lemma cleanText_quote_count (s : jsstring) :
  count_occ N.eq_dec (cleanText (Some s)) QUOTE
  = (2 * count_occ N.eq_dec s QUOTE)%nat.
Proof.
  rewrite cleanText_flat_map.
  induction s as [|c r IH]; [reflexivity|].
  cbn [flat_map]. rewrite count_occ_app, IH, cleanChar_quotes.
  change (c :: r) with ([c] ++ r). rewrite count_occ_app. lia.
Qed.

Lemma cleanText_quote_free (s : jsstring) :
  QUOTE ∉ s ->
  Forall (fun c => kept c = true /\ c <> QUOTE) (cleanText (Some s)).
Proof.
  rewrite cleanText_flat_map.
  induction s as [|c r IH]; intros Hq; [constructor|].
  apply not_elem_of_cons in Hq as [Hc Hr].
  cbn [flat_map]. apply Forall_app. split; [|exact (IH Hr)].
  unfold cleanChar. destruct (kept c) eqn:Hk; [|constructor].
  destruct (N.eqb_spec c QUOTE); [congruence|]. now repeat constructor.
Qed.

(** X5.  [cleanText] works piece by piece: cleaning a concatenation gives
    the concatenation of the cleaned pieces. *)
Theorem cleanText_app (a b : jsstring) :
  cleanText (Some (a ++ b)) = cleanText (Some a) ++ cleanText (Some b).
Proof. rewrite !cleanText_flat_map. apply flat_map_app. Qed.

(** X6.  Cleaning an already cleaned text changes it again exactly when the
    original text holds a double quote: every pass doubles the quotes once
    more. *)
Theorem cleanText_twice (s : jsstring) :
  cleanText (Some (cleanText (Some s))) = cleanText (Some s) <-> QUOTE ∉ s.
Proof.
  split.
  - intros Heq Hin.
    pose proof (f_equal (fun l => count_occ N.eq_dec l QUOTE) Heq) as Hc.
    cbn beta in Hc. rewrite !cleanText_quote_count in Hc.
    apply list_elem_of_In, (count_occ_In N.eq_dec) in Hin. lia.
  - intros Hq. now apply cleanText_fixed, cleanText_quote_free.
Qed.

Lemma cleanText_twice_witness :
  cleanText (Some (cleanText (Some (lit "Fix the bug"))))
  = cleanText (Some (lit "Fix the bug")).
Proof.
  apply cleanText_twice. intros Hin.
  apply list_elem_of_In in Hin. vm_compute in Hin. intuition discriminate.
Defined.

(** *** Tag stripping *)

Lemma stripTags_sublist (inTag : bool) (s : jsstring) :
  stripTags inTag s `sublist_of` s.
Proof.
  revert inTag. induction s as [|c r IH]; intros inTag; [constructor|].
  cbn [stripTags]. destruct inTag.
  - destruct (c =? GT); apply sublist_cons, IH.
  - destruct ((c =? LT) && opensTag r); [apply sublist_cons|apply sublist_skip]; apply IH.
Qed.

Lemma stripTags_no_gt (inTag : bool) (s : jsstring) :
  existsb (N.eqb GT) s = false -> existsb (N.eqb GT) (stripTags inTag s) = false.
Proof.
  intros Hs. apply not_true_iff_false. intros Hex.
  apply existsb_exists in Hex as (x & Hx & Hgt).
  apply not_true_iff_false in Hs. apply Hs, existsb_exists. exists x.
  split; [|exact Hgt]. apply list_elem_of_In.
  eapply elem_of_sublist; [apply list_elem_of_In, Hx|apply stripTags_sublist].
Qed.

Lemma opensTag_stripTags (r : jsstring) :
  opensTag r = false -> opensTag (stripTags false r) = false.
Proof.
  destruct r as [|d r']; [reflexivity|]. cbn [opensTag].
  destruct (N.eqb_spec d GT) as [->|Hd]; cbn [negb andb].
  - intros _. reflexivity.
  - intros Hno.
    assert (Hall : existsb (N.eqb GT) (d :: r') = false).
    { cbn [existsb]. rewrite Hno, orb_false_r. now apply N.eqb_neq. }
    apply (stripTags_no_gt false) in Hall.
    destruct (stripTags false (d :: r')) as [|x rest]; [reflexivity|].
    cbn [opensTag]. cbn [existsb] in Hall.
    apply orb_false_iff in Hall as [_ ->]. apply andb_false_r.
Qed.

Lemma stripTags_hasTag (s : jsstring) :
  hasTag (stripTags false s) = false /\ hasTag (stripTags true s) = false.
Proof.
  induction s as [|c r [IHf IHt]]; [split; reflexivity|].
  cbn [stripTags]. split; [|now destruct (c =? GT)].
  destruct ((c =? LT) && opensTag r) eqn:Htag; [exact IHt|].
  cbn [hasTag tagAt]. rewrite IHf, orb_false_r.
  apply andb_false_iff in Htag as [->|Hno]; [reflexivity|].
  rewrite (opensTag_stripTags _ Hno). apply andb_false_r.
Qed.

Lemma stripTags_fixed (s : jsstring) :
  hasTag s = false -> stripTags false s = s.
Proof.
  induction s as [|c r IH]; [reflexivity|].
  cbn [hasTag tagAt stripTags]. intros [Hhead Hrest]%orb_false_iff.
  rewrite Hhead. f_equal. exact (IH Hrest).
Qed.

(** X7.  The output of [cleanMarkdown] holds no tag: the pattern of the
    replacement matches nowhere in it, so stripping it again changes
    nothing. *)
Theorem cleanMarkdown_tag_free (marked : jsstring -> jsstring)
    (text : option jsstring) :
  hasTag (cleanMarkdown marked text) = false /\
  stripTags false (cleanMarkdown marked text) = cleanMarkdown marked text.
Proof.
  assert (Hfree : hasTag (cleanMarkdown marked text) = false).
  { unfold cleanMarkdown. destruct text as [s|]; [|reflexivity].
    destruct (falsy (Some s)); [reflexivity|]. apply stripTags_hasTag. }
  split; [exact Hfree|]. now apply stripTags_fixed.
Qed.

(** X8.  [cleanMarkdown] only removes characters: its output is the
    rendered text with some characters left out, in the same order. *)
Theorem cleanMarkdown_only_removes (marked : jsstring -> jsstring) (s : jsstring) :
  cleanMarkdown marked (Some s) `sublist_of` marked s.
Proof.
  unfold cleanMarkdown. destruct (falsy (Some s)).
  - apply sublist_nil_l.
  - apply stripTags_sublist.
Qed.

(** X9.  A rendered text with no tag in it is returned as it is. *)
Theorem cleanMarkdown_keeps_tag_free (marked : jsstring -> jsstring) (s : jsstring) :
  s <> [] -> hasTag (marked s) = false -> cleanMarkdown marked (Some s) = marked s.
Proof.
  intros Hs Hfree. unfold cleanMarkdown.
  destruct s as [|c r]; [contradiction|]. cbn [falsy].
  now apply stripTags_fixed.
Qed.

Lemma cleanMarkdown_keeps_tag_free_witness :
  cleanMarkdown (fun s => lit "a > b: " ++ s) (Some (lit "<>"))
  = lit "a > b: <>".
Proof.
  apply (cleanMarkdown_keeps_tag_free (fun s => lit "a > b: " ++ s));
    [discriminate|reflexivity].
Defined.

(** X10.  A tag, that is [<], then at least one character, none of them
    [>], then [>], is removed whole, and the text before it, when it has
    no [<], is kept. *)
Theorem stripTags_removes_tag (a t b : jsstring) :
  LT ∉ a -> t <> [] -> GT ∉ t ->
  stripTags false (a ++ [LT] ++ t ++ [GT] ++ b) = a ++ stripTags false b.
Proof.
  intros Ha Ht Hgt.
  assert (Hskip : forall t, GT ∉ t ->
            stripTags true (t ++ [GT] ++ b) = stripTags false b).
  { clear. induction t as [|d t IH]; intros Hgt.
    - cbn [app stripTags]. now rewrite N.eqb_refl.
    - apply not_elem_of_cons in Hgt as [Hd Hgt]. cbn [app stripTags].
      destruct (N.eqb_spec d GT) as [->|_]; [contradiction|]. now apply IH. }
  induction a as [|c a IH].
  - destruct t as [|d t]; [contradiction|].
    pose proof Hgt as Hgt'. apply not_elem_of_cons in Hgt' as [Hd Ht'].
    assert (Hopen : opensTag ((d :: t) ++ [GT] ++ b) = true).
    { cbn [app opensTag]. apply andb_true_iff. split.
      - apply negb_true_iff. apply N.eqb_neq. congruence.
      - apply existsb_exists. exists GT. split; [|apply N.eqb_refl].
        apply in_or_app. right. now left. }
    change (stripTags false ([] ++ [LT] ++ (d :: t) ++ [GT] ++ b))
      with (if (LT =? LT) && opensTag ((d :: t) ++ [GT] ++ b)
            then stripTags true ((d :: t) ++ [GT] ++ b)
            else LT :: stripTags false ((d :: t) ++ [GT] ++ b)).
    rewrite N.eqb_refl, Hopen. cbn [andb]. now apply Hskip.
  - apply not_elem_of_cons in Ha as [Hc Ha]. cbn [app stripTags].
    destruct (N.eqb_spec c LT) as [->|_]; [contradiction|].
    cbn [andb]. f_equal. now apply IH.
Qed.

Lemma stripTags_removes_tag_witness :
  stripTags false (lit "Fix " ++ [LT] ++ lit "b class=x" ++ [GT] ++ lit "the bug")
  = lit "Fix " ++ lit "the bug".
Proof.
  apply (stripTags_removes_tag (lit "Fix ") (lit "b class=x") (lit "the bug"));
    [|discriminate|]; intros Hin; apply list_elem_of_In in Hin;
    vm_compute in Hin; intuition discriminate.
Defined.

(** ** Owner and repository of a seed issue *)

Lemma splitOn_plain (sep : N) (cur x : jsstring) :
  sep ∉ x -> splitOn sep cur x = [cur ++ x].
Proof.
  revert cur. induction x as [|c x IH]; intros cur Hx.
  - cbn. now rewrite app_nil_r.
  - apply not_elem_of_cons in Hx as [Hc Hx]. cbn [splitOn].
    destruct (N.eqb_spec c sep) as [->|_]; [contradiction|].
    rewrite IH by exact Hx. now rewrite <- app_assoc.
Qed.

Lemma splitOn_app (sep : N) (cur a b : jsstring) :
  splitOn sep cur (a ++ sep :: b) = splitOn sep cur a ++ splitOn sep [] b.
Proof.
  revert cur. induction a as [|c a IH]; intros cur; cbn [app splitOn].
  - now rewrite N.eqb_refl.
  - destruct (c =? sep); [now rewrite IH|apply IH].
Qed.

Lemma sliceLast2_app {A} (l : list A) (x y : A) : sliceLast2 (l ++ [x; y]) = [x; y].
Proof.
  unfold sliceLast2. rewrite length_app. cbn [length].
  replace (length l + 2 - 2)%nat with (length l) by lia.
  now rewrite drop_app_length.
Qed.

(** X11.  For a [repository_url] that ends in [/owner/repo], where neither
    name has a slash, the requests of the issue are addressed to [owner]
    and [repo], whatever comes before. *)
Theorem ownerRepo_of_url (iss : SeedIssue) (base owner repo : jsstring) :
  repository_url iss = base ++ [SLASH] ++ owner ++ [SLASH] ++ repo ->
  SLASH ∉ owner -> SLASH ∉ repo ->
  ownerRepo iss = (Some owner, Some repo).
Proof.
  intros Hurl Ho Hr. unfold ownerRepo. rewrite Hurl.
  cbn [app]. rewrite splitOn_app, splitOn_app.
  rewrite (splitOn_plain SLASH [] owner Ho), (splitOn_plain SLASH [] repo Hr).
  change ([[] ++ owner] ++ [[] ++ repo]) with [owner; repo].
  now rewrite sliceLast2_app.
Qed.

Lemma ownerRepo_of_url_witness :
  ownerRepo Demo.issue42 = (Some (lit "acme"), Some (lit "app")).
Proof.
  apply (ownerRepo_of_url Demo.issue42 (lit "https://api.github.com/repos"));
    [reflexivity| |]; intros Hin; apply list_elem_of_In in Hin;
    vm_compute in Hin; intuition discriminate.
Defined.

(** X12.  For a [repository_url] without any slash the owner is the whole
    string and the repository name is [undefined]. *)
Theorem ownerRepo_without_slash (iss : SeedIssue) :
  SLASH ∉ repository_url iss ->
  ownerRepo iss = (Some (repository_url iss), None).
Proof.
  intros Hurl. unfold ownerRepo. now rewrite (splitOn_plain SLASH [] _ Hurl).
Qed.

Lemma ownerRepo_without_slash_witness :
  ownerRepo {| number := 1; node_id := lit "I_9"; body := None;
               user_login := lit "alice"; html_url := [];
               repository_url := lit "acme" |}
  = (Some (lit "acme"), None).
Proof.
  apply (ownerRepo_without_slash
           {| number := 1; node_id := lit "I_9"; body := None;
              user_login := lit "alice"; html_url := [];
              repository_url := lit "acme" |}).
  intros Hin. apply list_elem_of_In in Hin. vm_compute in Hin. intuition discriminate.
Defined.

(** ** More on the fetcher *)



Lemma deliver_prefix (ns : list nat) (arr pend : list Item) :
  exists extra, (deliver ns arr pend).1 = arr ++ extra.
Proof.
  revert arr pend. induction ns as [|n ns IH]; intros arr pend.
  - exists []. cbn. now rewrite app_nil_r.
  - cbn [deliver]. destruct (pend !! n) as [it|]; [|apply IH].
    destruct (IH (arr ++ [it]) (delete n pend)) as [extra ->].
    exists (it :: extra). now rewrite <- app_assoc.
Qed.

Lemma deliver_Permutation (ns : list nat) (arr pend : list Item) :
  (deliver ns arr pend).1 ++ (deliver ns arr pend).2 ≡ₚ arr ++ pend.
Proof.
  revert arr pend. induction ns as [|n ns IH]; intros arr pend; [reflexivity|].
  cbn [deliver]. destruct (pend !! n) as [it|] eqn:Hn; [|apply IH].
  rewrite IH, <- app_assoc. apply Permutation_app_head. cbn [app].
  symmetry. now apply delete_Permutation.
Qed.

Lemma pullRequestItems_cons (svc : Services) (iss : SeedIssue) (pr : RestPR)
    (prs : list RestPR) :
  pullRequestItems svc iss (pr :: prs)
  = (graphqlData ← answered (graphql_node svc (pr_node_id pr));
     prBlock iss graphqlData pr) ++ pullRequestItems svc iss prs.
Proof. reflexivity. Qed.

(** The loop over the pull requests, whatever is pending: nothing is lost,
    the array only grows at its end, and the blocks of the pull requests
    are in it, whole and in order. *)
Lemma pull_requests_run_any (svc : Services) (iss : SeedIssue)
    (prs : list RestPR) (w w' : World) :
  forEachM (fun pr => prData ← fetchPrData svc iss pr; pushAll prData) prs w
  = (inr tt, w') ->
  allData w' ++ pending w' ≡ₚ (allData w ++ pending w) ++ pullRequestItems svc iss prs /\
  exists extra,
    allData w' = allData w ++ extra /\
    pullRequestItems svc iss prs `sublist_of` extra /\
    forall pr graphqlData,
      pr ∈ prs -> graphql_node svc (pr_node_id pr) = inr graphqlData ->
      exists pre post, extra = pre ++ prBlock iss graphqlData pr ++ post.
Proof.
  revert w. induction prs as [|pr r IH]; intros w.
  - intros [= <-]. split; [cbn; now rewrite app_nil_r|].
    exists []. rewrite app_nil_r. split; [reflexivity|]. split; [constructor|].
    intros pr g Hin. inversion Hin.
  - cbn [forEachM]. rewrite bind_run, bind_run, fetchPrData_run.
    rewrite pullRequestItems_cons.
    destruct (graphql_node svc (pr_node_id pr)) as [e|g] eqn:Hnode; [discriminate|].
    cbn [pushAll answered]. intros Hrun.
    apply IH in Hrun as (Hperm & extra & Hdata & Hsub & Hblocks).
    cbn [allData pending afterRequest suspend emit snd] in Hperm, Hdata.
    cbn [allData pending trace awaits reads] in Hperm, Hdata.
    destruct (deliver_prefix (completes svc (awaits w)) (allData w) (pending w))
      as [early Hearly].
    pose proof (deliver_Permutation (completes svc (awaits w)) (allData w) (pending w))
      as Hdel.
    change (g0 ← [g]; prBlock iss g0 pr) with (prBlock iss g pr ++ []).
    rewrite app_nil_r. fold (prBlock iss g pr) in Hperm, Hdata. split.
    + rewrite Hperm. rewrite <- Hdel.
      rewrite <- !app_assoc. apply Permutation_app_head.
      rewrite !app_assoc. apply Permutation_app_tail, Permutation_app_comm.
    + exists (early ++ prBlock iss g pr ++ extra). split; [|split].
      * rewrite Hdata, Hearly, <- !app_assoc. reflexivity.
      * apply sublist_inserts_l, sublist_app; [reflexivity|exact Hsub].
      * intros pr' g' [->|Hin]%elem_of_cons Hg'.
        -- rewrite Hnode in Hg'. injection Hg' as <-. now exists early, extra.
        -- destruct (Hblocks pr' g' Hin Hg') as (pre & post & ->).
           exists (early ++ prBlock iss g pr ++ pre), post.
           now rewrite <- !app_assoc.
Qed.

(** The stages of [fetchAllRelatedData] when it returns: the three
    listings were answered, and when the loop over the pull requests
    starts the array begins with the issue body and holds, with what is
    still pending, the issue body and the issue comments. *)
Lemma fetchAllRelatedData_stages (svc : Services) (iss : SeedIssue) (w w' : World) :
  fetchAllRelatedData svc iss w = (inr tt, w') ->
  exists payload comments prs w2,
    issues_get svc (ownerRepo iss).1 (ownerRepo iss).2 (number iss) = inr payload /\
    issues_listComments svc (ownerRepo iss).1 (ownerRepo iss).2 (number iss)
    = inr comments /\
    pulls_list svc (ownerRepo iss).1 (ownerRepo iss).2 = inr prs /\
    forEachM (fun pr => prData ← fetchPrData svc iss pr; pushAll prData)
             (List.filter (mentions iss) prs) w2 = (inr tt, w') /\
    (exists rest, allData w2 = issueItem iss payload :: rest) /\
    allData w2 ++ pending w2 ≡ₚ issueItem iss payload :: commentItems svc iss comments.
Proof.
  unfold fetchAllRelatedData, fetchPayloadIssue, fetchIssueComments,
    fetchAssociatedPRs.
  destruct (ownerRepo iss) as [o r] eqn:Hor. cbn [fst snd].
  rewrite bind_run, await_run.
  destruct (issues_get svc o r (number iss)) as [e|payload]; [discriminate|].
  rewrite bind_run. cbn [newArray]. rewrite bind_run, await_run.
  destruct (issues_listComments svc o r (number iss)) as [e|comments];
    [discriminate|].
  rewrite bind_run.
  match goal with |- context [forEachM _ comments ?w0] =>
    destruct (callbacks_run svc iss comments w0) as (w1 & -> & Ha & Hd & Hp)
  end.
  cbn in Ha, Hd, Hp. rewrite deliver_nil in Hd, Hp. cbn in Hd, Hp.
  rewrite bind_run, bind_run, await_run.
  destruct (pulls_list svc o r) as [e|prs]; [discriminate|].
  cbn [mret M_ret]. intros Hrun.
  exists payload, comments, prs, (afterRequest svc (PullsList o r) w1).
  repeat (split; [reflexivity|]). split; [exact Hrun|].
  cbn [allData pending afterRequest suspend emit snd].
  cbn [allData pending trace awaits reads]. rewrite Hd, Hp. split.
  - destruct (deliver_prefix (completes svc (awaits w1)) [issueItem iss payload]
                (commentItems svc iss comments)) as [extra ->].
    now exists extra.
  - apply deliver_Permutation.
Qed.

(** X14.  Whatever the event loop does, the array [fetchAllRelatedData]
    returns starts with the body of the seed issue. *)
Theorem issue_body_first (svc : Services) (iss : SeedIssue) (w w' : World) :
  fetchAllRelatedData svc iss w = (inr tt, w') ->
  exists payload rest,
    issues_get svc (ownerRepo iss).1 (ownerRepo iss).2 (number iss) = inr payload /\
    allData w' = issueItem iss payload :: rest.
Proof.
  intros Hrun.
  apply fetchAllRelatedData_stages in Hrun
    as (payload & comments & prs & w2 & Hget & _ & _ & Hloop & [rest Hhead] & _).
  apply pull_requests_run_any in Hloop as (_ & extra & Hdata & _).
  exists payload, (rest ++ extra). split; [exact Hget|]. now rewrite Hdata, Hhead.
Qed.

Lemma issue_body_first_witness :
  let svc := Demo.services [Demo.comment7] Demo.late in
  exists payload rest,
    issues_get svc (ownerRepo Demo.issue42).1 (ownerRepo Demo.issue42).2 42
    = inr payload /\
    allData (snd (fetchAllRelatedData svc Demo.issue42 Demo.world0))
    = issueItem Demo.issue42 payload :: rest.
Proof.
  intros svc.
  apply (issue_body_first svc Demo.issue42 Demo.world0). vm_compute. reflexivity.
Defined.

(** X15.  Whatever the event loop does, the items of the associated pull
    requests are in the returned array in the order of the listing, and the
    items of each pull request stand together, body first, with nothing in
    between. *)
Theorem pull_request_blocks (svc : Services) (iss : SeedIssue) (w w' : World) :
  fetchAllRelatedData svc iss w = (inr tt, w') ->
  exists prs,
    pulls_list svc (ownerRepo iss).1 (ownerRepo iss).2 = inr prs /\
    pullRequestItems svc iss (List.filter (mentions iss) prs)
      `sublist_of` allData w' /\
    forall pr graphqlData,
      pr ∈ List.filter (mentions iss) prs ->
      graphql_node svc (pr_node_id pr) = inr graphqlData ->
      exists pre post, allData w' = pre ++ prBlock iss graphqlData pr ++ post.
Proof.
  intros Hrun.
  apply fetchAllRelatedData_stages in Hrun
    as (payload & comments & prs & w2 & _ & _ & Hpulls & Hloop & _ & _).
  apply pull_requests_run_any in Hloop as (_ & extra & Hdata & Hsub & Hblocks).
  exists prs. split; [exact Hpulls|]. rewrite Hdata. split.
  - now apply sublist_inserts_l.
  - intros pr g Hin Hg. destruct (Hblocks pr g Hin Hg) as (pre & post & ->).
    exists (allData w2 ++ pre), post. now rewrite <- app_assoc.
Qed.

Lemma pull_request_blocks_witness :
  let svc := Demo.services [Demo.comment7] Demo.late in
  exists prs,
    pulls_list svc (ownerRepo Demo.issue42).1 (ownerRepo Demo.issue42).2 = inr prs /\
    pullRequestItems svc Demo.issue42 (List.filter (mentions Demo.issue42) prs)
      `sublist_of` allData (snd (fetchAllRelatedData svc Demo.issue42 Demo.world0)).
Proof.
  intros svc.
  destruct (pull_request_blocks svc Demo.issue42 Demo.world0
              (snd (fetchAllRelatedData svc Demo.issue42 Demo.world0)))
    as (prs & Hpulls & Hsub & _); [vm_compute; reflexivity|].
  exists prs. split; assumption.
Defined.



(** ** More on the aggregator *)

Lemma built_route (item : Item) (entry : Entry) (acc : Acc) :
  built (route item entry acc) = built acc.
Proof.
  unfold route. destruct (hasCommentMarker (item_id item));
    [destruct (decide (item_id item ∈ commentIds acc))
    |destruct (decide (item_id item ∈ issueIds acc))]; reflexivity.
Qed.

(** X17.  In a run that returns, every entry keeps the identifier and the
    payload of the item it was built from, and its author id is the id the
    user lookup answered for the item's login, or -1 when that lookup was
    rejected. *)
Theorem entry_provenance (svc : Services) (seeds : list SeedIssue)
    (w : World) (acc : Acc) (w' : World) :
  processIssues_loop svc seeds emptyAcc w = (inr acc, w') ->
  forall item entry, (item, entry) ∈ built acc ->
    entry_id entry = item_id item /\
    entry_payload entry = item_payload item /\
    (users_get svc (item_userLogin item) = inr (entry_author_id entry) \/
     (exists e, users_get svc (item_userLogin item) = inl e) /\
     entry_author_id entry = (-1)%Z).
Proof.
  intros Hrun item entry Hin.
  destruct (processIssues_loop_ok svc seeds w acc w' Hrun) as [_ _ _ _ _ _ _ _ Hh].
  rewrite Forall_forall in Hh.
  destruct (Hh _ Hin) as (iss & response & a & c & m & _ & Hauthor & Hentry).
  cbn [fst snd] in *. subst entry. repeat split; [reflexivity..|exact Hauthor].
Qed.

Lemma entry_provenance_witness :
  let svc := Demo.services [Demo.comment7] Demo.prompt in
  let acc := Demo.final svc [Demo.issue42] in
  Forall (fun p => entry_id p.2 = item_id p.1 /\
                   entry_payload p.2 = item_payload p.1) (built acc) /\
  entry_author_id <$> commentDataList acc = [2; -1; 2; 1]%Z.
Proof.
  intros svc acc. split; [|vm_compute; reflexivity].
  apply Forall_forall. intros [item entry] Hin. cbn [fst snd].
  destruct (entry_provenance svc [Demo.issue42] Demo.world0 acc
              (snd (processIssues_loop svc [Demo.issue42] emptyAcc Demo.world0))
              ltac:(vm_compute; reflexivity) item entry Hin) as (Hid & Hp & _).
  now split.
Defined.

Lemma fetchAuthorId_reads (svc : Services) (login : jsstring) (w : World) :
  exists id w1, fetchAuthorId svc login w = (inr id, w1) /\ reads w1 = reads w.
Proof.
  unfold fetchAuthorId, try_catch. rewrite await_run.
  destruct (users_get svc login) as [e|id].
  - rewrite bind_run. cbn [emit mret M_ret]. eexists _, _. split; reflexivity.
  - eexists _, _. split; reflexivity.
Qed.

(** X18.  The two timestamps of an entry are two readings of the clock, one
    right after the other: [created_at] first, [modified_at] next; the
    loop body reads the clock exactly twice. *)
Theorem entry_timestamps (svc : Services) (iss : SeedIssue) (item : Item)
    (acc : Acc) (w : World) (acc' : Acc) (w' : World) :
  processItem svc iss item acc w = (inr acc', w') ->
  exists entry,
    built acc' = built acc ++ [(item, entry)] /\
    entry_created_at entry = Date_toISOString svc (reads w) /\
    entry_modified_at entry = Date_toISOString svc (S (reads w)) /\
    reads w' = S (S (reads w)).
Proof.
  unfold processItem.
  rewrite (bind_run (extractEmbeddings svc _)), extractEmbeddings_run.
  destruct (vo_embed svc _) as [e|response]; [discriminate|].
  rewrite (bind_run (fetchAuthorId svc _)).
  match goal with |- context [fetchAuthorId svc ?l ?w0] =>
    destruct (fetchAuthorId_reads svc l w0) as (authorId & w1 & -> & Hreads)
  end.
  cbn [reads afterRequest suspend emit snd] in Hreads.
  rewrite (bind_run (getCurrentTimestamp svc)), getCurrentTimestamp_run.
  rewrite (bind_run (getCurrentTimestamp svc)), getCurrentTimestamp_run.
  cbn [mret M_ret reads]. intros [= <- <-]. eexists.
  rewrite built_route. cbn [record built reads]. rewrite Hreads.
  repeat split; reflexivity.
Qed.

Lemma entry_timestamps_witness :
  let svc := Demo.services [] Demo.prompt in
  let item := issueItem Demo.issue42 {| json_text := [] |} in
  exists entry,
    built (Demo.final svc []) ++ [(item, entry)]
    = built (match fst (processItem svc Demo.issue42 item emptyAcc Demo.world0) with
             | inr acc' => acc' | inl _ => emptyAcc end) /\
    entry_created_at entry = lit "2024-01-01T00:00:00.0" /\
    entry_modified_at entry = lit "2024-01-01T00:00:00.1".
Proof.
  intros svc item.
  destruct (entry_timestamps svc Demo.issue42 item emptyAcc Demo.world0
              (match fst (processItem svc Demo.issue42 item emptyAcc Demo.world0) with
               | inr acc' => acc' | inl _ => emptyAcc end)
              (snd (processItem svc Demo.issue42 item emptyAcc Demo.world0))
              ltac:(vm_compute; reflexivity)) as (entry & Hb & Hc & Hm & _).
  exists entry. split; [now rewrite Hb|]. split; [exact Hc|exact Hm].
Defined.

(** X19.  Rows are only ever added at the end of a table: what the tables
    and the history held before a run is still there, unchanged and in
    place, when the run returns. *)
Theorem tables_only_grow (svc : Services) (seeds : list SeedIssue)
    (acc : Acc) (w : World) (acc' : Acc) (w' : World) :
  processIssues_loop svc seeds acc w = (inr acc', w') ->
  issueDataList acc `prefix_of` issueDataList acc' /\
  commentDataList acc `prefix_of` commentDataList acc' /\
  built acc `prefix_of` built acc'.
Proof.
  apply (processIssues_loop_invariant svc
           (fun a => issueDataList acc `prefix_of` issueDataList a /\
                     commentDataList acc `prefix_of` commentDataList a /\
                     built acc `prefix_of` built a)).
  - intros iss item entry a (Hi & Hc & Hb) _. unfold route, record.
    cbn [issueIds commentIds issueDataList commentDataList built].
    destruct (hasCommentMarker (item_id item));
      [destruct (decide (item_id item ∈ commentIds a))
      |destruct (decide (item_id item ∈ issueIds a))];
      cbn [issueDataList commentDataList built];
      repeat split; try assumption; now apply prefix_app_r.
  - repeat split; reflexivity.
Qed.

Lemma tables_only_grow_witness :
  let svc := Demo.services [Demo.comment7] Demo.late in
  let acc := Demo.final (Demo.services [Demo.comment7] Demo.prompt) [Demo.issue42] in
  let acc' := match fst (processIssues_loop svc [Demo.issue42] acc Demo.world0) with
              | inr a => a | inl _ => emptyAcc end in
  commentDataList acc `prefix_of` commentDataList acc' /\
  length (built acc') = 10%nat.
Proof.
  intros svc acc acc'. split; [|vm_compute; reflexivity].
  destruct (tables_only_grow svc [Demo.issue42] acc Demo.world0 acc'
              (snd (processIssues_loop svc [Demo.issue42] acc Demo.world0))
              ltac:(vm_compute; reflexivity)) as (_ & Hc & _).
  exact Hc.
Defined.

Lemma bind_assoc {A B C} (m : M A) (f : A -> M B) (g : B -> M C) (w : World) :
  ((m ≫= f) ≫= g) w = (m ≫= (fun a => f a ≫= g)) w.
Proof.
  rewrite !bind_run. destruct (m w) as [[e|a] w1]; [reflexivity|].
  now rewrite bind_run.
Qed.

Lemma bind_ext {A B} (m : M A) (f g : A -> M B) (w : World) :
  (forall a w1, f a w1 = g a w1) -> (m ≫= f) w = (m ≫= g) w.
Proof.
  intros Hfg. rewrite !bind_run. destruct (m w) as [[e|a] w1]; [reflexivity|].
  apply Hfg.
Qed.

(** X20.  The run goes through the seed issues one after the other: the run
    over two lists joined is the run over the first, then the run over the
    second from the accumulators and the world the first left; when the
    first throws, the second is not started. *)
Theorem processIssues_loop_app (svc : Services) (first second : list SeedIssue)
    (acc : Acc) (w : World) :
  processIssues_loop svc (first ++ second) acc w
  = (acc' ← processIssues_loop svc first acc;
     processIssues_loop svc second acc') w.
Proof.
  revert acc w. induction first as [|issue rest IH]; intros acc w.
  - reflexivity.
  - cbn [app processIssues_loop]. rewrite bind_assoc. apply bind_ext.
    intros _ w1. destruct (falsy (body issue)).
    + rewrite bind_assoc. apply bind_ext. intros _ w2. apply IH.
    + rewrite bind_assoc. apply bind_ext. intros _ w2.
      rewrite bind_assoc. apply bind_ext. intros acc1 w3. apply IH.
Qed.

(** The invariant rule again, knowing which seed issue a step works on. *)
Lemma processIssues_loop_invariant_from (svc : Services)
    (ok : SeedIssue -> Prop) (P : Acc -> Prop) :
  (forall iss item entry acc,
     ok iss -> P acc -> built_from svc iss item entry ->
     P (route item entry (record item entry acc))) ->
  forall seeds acc,
    Forall (fun iss => falsy (body iss) = false -> ok iss) seeds ->
    P acc -> returns (processIssues_loop svc seeds acc) P.
Proof.
  intros Hstep.
  assert (Hfor : forall iss fuel j acc,
             ok iss -> P acc -> returns (forOf svc fuel j iss acc) P).
  { intros iss fuel. induction fuel as [|fuel IH]; intros j acc Hok Hacc w a w';
      cbn [forOf]; (destruct (allData w !! j) as [item|];
                    [|now intros [= <- _]]); [discriminate|].
    apply (returns_bind _ _ _ P (processItem_returns svc iss item acc)).
    intros acc1 (entry & Hbuilt & ->). apply IH; [exact Hok|].
    now apply (Hstep iss). }
  intros seeds. induction seeds as [|issue rest IH]; intros acc Hall Hacc;
    cbn [processIssues_loop].
  - now apply returns_ret.
  - apply Forall_cons in Hall as [Hissue Hrest].
    eapply returns_bind; [apply returns_any|intros _ _].
    destruct (falsy (body issue)) eqn:Hbody.
    + eapply returns_bind; [apply returns_any|intros _ _]. now apply IH.
    + eapply returns_bind; [apply returns_any|intros _ _].
      apply (returns_bind _ _ P); [|intros acc1 Hacc1; now apply IH].
      intros w a w'. unfold forOfAllRelatedData. apply Hfor; [|exact Hacc].
      now apply Hissue.
Qed.

(** X21.  In a run that returns, the [issue_id] of every entry is the node
    identifier of one of the seed issues of the input, one whose body is
    not empty. *)
Theorem entry_issue_id_of_seed (svc : Services) (seeds : list SeedIssue)
    (w : World) (acc : Acc) (w' : World) :
  processIssues_loop svc seeds emptyAcc w = (inr acc, w') ->
  forall item entry, (item, entry) ∈ built acc ->
    exists iss, iss ∈ seeds /\ falsy (body iss) = false /\
                entry_issue_id entry = node_id iss.
Proof.
  apply (processIssues_loop_invariant_from svc
           (fun iss => iss ∈ seeds /\ falsy (body iss) = false)
           (fun acc => forall item entry, (item, entry) ∈ built acc ->
              exists iss, iss ∈ seeds /\ falsy (body iss) = false /\
                          entry_issue_id entry = node_id iss)).
  - intros iss item entry acc0 [Hin Hbody] Hacc Hbuilt item' entry'.
    rewrite built_route. cbn [record built].
    intros [Hold|Hnew]%elem_of_app; [now apply (Hacc item')|].
    apply list_elem_of_singleton in Hnew as [= -> ->].
    destruct Hbuilt as (? & ? & ? & ? & _ & _ & ->). now exists iss.
  - apply Forall_forall. intros iss Hin Hbody. now split.
  - intros item entry Hin. inversion Hin.
Qed.

Lemma entry_issue_id_of_seed_witness :
  let svc := Demo.services [Demo.comment7] Demo.prompt in
  let acc := Demo.final svc [Demo.issue43; Demo.issue42] in
  Forall (fun p => exists iss, iss ∈ [Demo.issue43; Demo.issue42] /\
                               falsy (body iss) = false /\
                               entry_issue_id p.2 = node_id iss) (built acc) /\
  length (built acc) = 5%nat.
Proof.
  intros svc acc. split; [|vm_compute; reflexivity].
  apply Forall_forall. intros [item entry] Hin. cbn [snd].
  apply (entry_issue_id_of_seed svc [Demo.issue43; Demo.issue42] Demo.world0 acc
           (snd (processIssues_loop svc [Demo.issue43; Demo.issue42]
                                    emptyAcc Demo.world0)))
    with (item := item); [vm_compute; reflexivity|exact Hin].
Defined.

Lemma processItem_preserves (svc : Services) (Inv : World -> Prop) iss item acc :
  (forall w e, Inv w -> Inv (snd (emit e w))) ->
  (forall w, Inv w -> Inv (snd (suspend svc w))) ->
  (forall w, Inv w -> Inv (snd (tick w))) ->
  preserves Inv (processItem svc iss item acc).
Proof.
  intros He Hs Ht.
  assert (Ha : forall A r (answer : Error + A), preserves Inv (await svc r answer)).
  { intros A r answer. apply preserves_await; [intros w0; apply He|exact Hs]. }
  assert (Hc : preserves Inv (getCurrentTimestamp svc)).
  { unfold getCurrentTimestamp. apply preserves_bind.
    - intros w0 Hw0. split; [now apply Ht|discriminate].
    - intros k. apply preserves_ret. }
  unfold processItem, extractEmbeddings, fetchAuthorId.
  apply preserves_bind.
  { apply preserves_bind; [apply Ha|intros; apply preserves_ret]. }
  intros embedding. apply preserves_bind.
  { apply preserves_try_catch; [apply Ha|intros e].
    apply preserves_bind; [|intros; apply preserves_ret].
    apply preserves_emit. intros w0. apply He. }
  intros authorId. apply preserves_bind; [exact Hc|intros c].
  apply preserves_bind; [exact Hc|intros m]. apply preserves_ret.
Qed.

(** While the loop body runs, the array only grows at its end. *)
Lemma processItem_allData_prefix (svc : Services) iss item acc (w : World) :
  allData w `prefix_of` allData (snd (processItem svc iss item acc w)).
Proof.
  apply (processItem_preserves svc (fun w1 => allData w `prefix_of` allData w1));
    [intros w1 e H; exact H| |intros w1 H; exact H|reflexivity].
  intros w1 H. cbn [suspend snd allData].
  destruct (deliver_prefix (completes svc (awaits w1)) (allData w1) (pending w1))
    as [extra ->].
  now apply prefix_app_r.
Qed.

Lemma forOf_visits (svc : Services) iss (fuel j : nat) (acc : Acc) (w : World)
    (acc' : Acc) (w' : World) :
  forOf svc fuel j iss acc w = (inr acc', w') ->
  allData w `prefix_of` allData w' /\
  fst <$> built acc' = (fst <$> built acc) ++ drop j (allData w').
Proof.
  revert j acc w. induction fuel as [|fuel IH]; intros j acc w; cbn [forOf];
    destruct (allData w !! j) as [item|] eqn:Hj;
    try (intros [= <- <-]; split; [reflexivity|];
         rewrite drop_ge by (now apply lookup_ge_None_1);
         now rewrite app_nil_r);
    [discriminate|].
  rewrite bind_run.
  pose proof (processItem_allData_prefix svc iss item acc w) as Hgrow.
  destruct (processItem svc iss item acc w) as [[e|acc1] w1] eqn:Hp; [discriminate|].
  cbn [snd] in Hgrow. intros Hrest.
  apply processItem_returns in Hp as (entry & _ & ->).
  apply IH in Hrest as [Hgrow' Hbuilt].
  assert (Hpre : allData w `prefix_of` allData w') by (etransitivity; eassumption).
  split; [exact Hpre|]. rewrite Hbuilt, built_route. cbn [record built].
  rewrite fmap_app, <- app_assoc. f_equal. cbn [fmap list_fmap fst app].
  symmetry. apply drop_S. exact (prefix_lookup_Some _ _ _ _ Hj Hpre).
Qed.

(** X22.  The loop over the array visits, once each and in the order of the
    array, all the items the array holds when the loop ends, those pushed
    by a late callback while the loop was running included. *)
Theorem forOf_visits_whole_array (svc : Services) (iss : SeedIssue) (acc : Acc)
    (w : World) (acc' : Acc) (w' : World) :
  forOfAllRelatedData svc iss acc w = (inr acc', w') ->
  fst <$> built acc' = (fst <$> built acc) ++ allData w'.
Proof.
  unfold forOfAllRelatedData. intros Hrun.
  apply forOf_visits in Hrun as [_ Hbuilt]. exact Hbuilt.
Qed.

Lemma forOf_visits_whole_array_witness :
  let svc := Demo.services [Demo.comment7] Demo.late in
  let fetched := snd (fetchAllRelatedData svc Demo.issue42 Demo.world0) in
  let looped := forOfAllRelatedData svc Demo.issue42 emptyAcc fetched in
  let acc' := match fst looped with inr a => a | inl _ => emptyAcc end in
  item_id <$> allData fetched = [lit "I_1"; lit "PR_9"; lit "IC_10"; lit "PRRC_11"] /\
  item_id <$> allData (snd looped)
  = [lit "I_1"; lit "PR_9"; lit "IC_10"; lit "PRRC_11"; lit "IC_7"] /\
  fst <$> built acc' = allData (snd looped).
Proof.
  intros svc fetched looped acc'.
  split; [vm_compute; reflexivity|]. split; [vm_compute; reflexivity|].
  apply (forOf_visits_whole_array svc Demo.issue42 emptyAcc fetched acc' (snd looped)).
  vm_compute. reflexivity.
Defined.

(** ** Failures that are not caught *)

(** X23.  When the issue request of a seed issue with a body is rejected,
    the run ends with that rejection and writes no row: after the progress
    message, that request is the last thing the run does, and the seed
    issues that follow are not looked at. *)
Theorem issue_request_rejected_aborts (svc : Services) (issue : SeedIssue)
    (rest : list SeedIssue) (w : World) (e : Error) :
  falsy (body issue) = false ->
  issues_get svc (ownerRepo issue).1 (ownerRepo issue).2 (number issue) = inl e ->
  fst (processIssues svc (issue :: rest) w) = inl (Thrown e) /\
  trace (snd (processIssues svc (issue :: rest) w))
  = trace w ++
    [ ConsoleLog (lit "Processing issue " ++ showN (number issue) ++ lit "...");
      Sent (IssuesGet (ownerRepo issue).1 (ownerRepo issue).2 (number issue)) ].
Proof.
  intros Hbody Hget. unfold processIssues. rewrite bind_run.
  cbn [processIssues_loop]. rewrite Hbody, bind_run. cbn [console_log emit].
  rewrite bind_run. unfold fetchAllRelatedData, fetchPayloadIssue.
  destruct (ownerRepo issue) as [o r]. cbn [fst snd] in *.
  rewrite bind_run, await_run, Hget. split; [reflexivity|].
  cbn [snd trace afterRequest suspend emit]. now rewrite <- app_assoc.
Qed.

Lemma issue_request_rejected_aborts_witness :
  fst (processIssues Outage.no_issue_api [Demo.issue42; Demo.issue42] Demo.world0)
  = inl (Thrown Demo.offline) /\
  length (trace (snd (processIssues Outage.no_issue_api [Demo.issue42; Demo.issue42]
                                    Demo.world0))) = 2%nat.
Proof.
  destruct (issue_request_rejected_aborts Outage.no_issue_api Demo.issue42
              [Demo.issue42] Demo.world0 Demo.offline eq_refl eq_refl) as [Hfst Htrace].
  split; [exact Hfst|]. now rewrite Htrace.
Defined.

(** X24.  When the embedding of the body of a seed issue is rejected, the
    run ends with that rejection, whatever was accumulated from the seed
    issues before: nothing is written. *)
Theorem embedding_rejected_aborts (svc : Services) (issue : SeedIssue)
    (rest : list SeedIssue) (acc : Acc) (w w2 : World) (e : Error) :
  falsy (body issue) = false ->
  fetchAllRelatedData svc issue
    (snd (console_log (lit "Processing issue " ++ showN (number issue) ++ lit "...") w))
  = (inr tt, w2) ->
  vo_embed svc (cleanMarkdown (marked svc) (body issue)) = inl e ->
  fst (processIssues_loop svc (issue :: rest) acc w) = inl (Thrown e).
Proof.
  intros Hbody Hfetch Hembed. cbn [processIssues_loop].
  rewrite Hbody, bind_run. cbn [console_log emit].
  cbn [console_log emit snd] in Hfetch.
  rewrite bind_run, Hfetch, bind_run.
  assert (Hhead : exists payload tl, allData w2 = issueItem issue payload :: tl).
  { apply fetchAllRelatedData_stages in Hfetch
      as (payload & comments & prs & w1 & _ & _ & _ & Hloop & [tl Hhead] & _).
    apply pull_requests_run_any in Hloop as (_ & extra & Hdata & _).
    exists payload, (tl ++ extra). now rewrite Hdata, Hhead. }
  destruct Hhead as (payload & tl & Hhead).
  unfold forOfAllRelatedData. rewrite Hhead. cbn [length Nat.add forOf].
  rewrite Hhead. cbn [lookup list_lookup]. rewrite bind_run.
  unfold processItem. rewrite (bind_run (extractEmbeddings svc _)).
  rewrite extractEmbeddings_run. cbn [issueItem item_text]. now rewrite Hembed.
Qed.

Lemma embedding_rejected_aborts_witness :
  fst (processIssues_loop Outage.no_embedding [Demo.issue42]
         (Demo.final Outage.base [Demo.issue42]) Demo.world0)
  = inl (Thrown Demo.offline).
Proof.
  apply (embedding_rejected_aborts Outage.no_embedding Demo.issue42 []
           (Demo.final Outage.base [Demo.issue42]) Demo.world0
           (snd (fetchAllRelatedData Outage.no_embedding Demo.issue42
                   (snd (console_log (lit "Processing issue " ++ showN 42 ++ lit "...")
                                     Demo.world0)))) Demo.offline);
    [reflexivity|vm_compute; reflexivity|reflexivity].
Defined.

(** ** Witnesses of the properties of the fetcher and of the run *)

Lemma fetchAllRelatedData_prompt_witness :
  let svc := Demo.services [Demo.comment7] Demo.prompt in
  let w' := snd (fetchAllRelatedData svc Demo.issue42 Demo.world0) in
  allData w' = fetchOrder svc Demo.issue42 /\ pending w' = [].
Proof.
  intros svc w'.
  apply (fetchAllRelatedData_prompt svc Demo.issue42 Demo.world0 w' 4);
    [reflexivity| |vm_compute; reflexivity].
  intros comments Hlist. vm_compute in Hlist. injection Hlist as <-. cbn. lia.
Defined.

Lemma fetchAllRelatedData_issue_id_witness :
  let svc := Demo.services [Demo.comment7] Demo.late in
  let w' := snd (fetchAllRelatedData svc Demo.issue42 Demo.world0) in
  Forall (fun it => item_issue_id it = lit "I_1") (allData w' ++ pending w').
Proof.
  intros svc w'.
  apply (fetchAllRelatedData_issue_id svc Demo.issue42 Demo.world0 w').
  vm_compute. reflexivity.
Defined.

Lemma tables_in_build_order_witness :
  let svc := Demo.services [Demo.comment7] Demo.late in
  let acc := Demo.final svc [Demo.issue42; Demo.issue42] in
  issueDataList acc `sublist_of` (snd <$> built acc) /\
  commentDataList acc `sublist_of` (snd <$> built acc).
Proof.
  intros svc acc.
  apply (tables_in_build_order svc [Demo.issue42; Demo.issue42] Demo.world0 acc
           (snd (processIssues_loop svc [Demo.issue42; Demo.issue42]
                                    emptyAcc Demo.world0))).
  vm_compute. reflexivity.
Defined.


(** ** Rendering of an embedding *)

Lemma join_cons (sep x : jsstring) (l : list jsstring) :
  join sep (x :: l) = x ++ flat_map (fun y => sep ++ y) l.
Proof.
  revert x. induction l as [|y r IH]; intros x.
  - cbn. now rewrite app_nil_r.
  - change (join sep (x :: y :: r)) with (x ++ sep ++ join sep (y :: r)).
    rewrite IH. cbn [flat_map]. now rewrite <- app_assoc.
Qed.

(** X29.  A non-empty embedding is rendered as an opening bracket, the
    first number, then a comma and a space before each further number, and
    a closing bracket: no separator leads or trails. *)
Theorem formatEmbedding_separators (svc : Services) (x : jsnumber)
    (l : list jsnumber) :
  formatEmbedding svc (x :: l)
  = lit "[" ++ Number_toString svc x ++
    flat_map (fun y => lit ", " ++ Number_toString svc y) l ++ lit "]".
Proof.
  unfold formatEmbedding. cbn [map]. rewrite join_cons, <- app_assoc.
  do 2 f_equal. f_equal. induction l as [|y r IH]; [reflexivity|].
  cbn [map flat_map]. now rewrite IH.
Qed.

(** ** A run over seed issues without a body *)

(** X30.  A run over seed issues that all have an empty or null body sends
    no request at all, logs two messages per issue and yields two empty
    tables. *)
Theorem processIssues_all_skipped (svc : Services) (seeds : list SeedIssue)
    (w : World) :
  Forall (fun iss => falsy (body iss) = true) seeds ->
  exists w',
    processIssues svc seeds w = (inr ([], []), w') /\
    (exists logs, trace w' = trace w ++ logs /\
                  length logs = (2 * length seeds)%nat /\
                  Forall (fun ev => exists msg, ev = ConsoleLog msg) logs) /\
    awaits w' = awaits w.
Proof.
  intros Hall.
  assert (Hloop : forall acc, exists w',
            processIssues_loop svc seeds acc w = (inr acc, w') /\
            (exists logs, trace w' = trace w ++ logs /\
                          length logs = (2 * length seeds)%nat /\
                          Forall (fun ev => exists msg, ev = ConsoleLog msg) logs) /\
            awaits w' = awaits w).
  { intros acc. revert w. induction Hall as [|issue rest Hbody _ IH]; intros w.
    - exists w. split; [reflexivity|]. split; [|reflexivity].
      exists []. rewrite app_nil_r. now repeat split.
    - cbn [processIssues_loop]. rewrite Hbody, bind_run. cbn [console_log emit].
      rewrite bind_run. cbn [console_log emit].
      match goal with |- context [processIssues_loop svc rest acc ?w0] =>
        destruct (IH w0) as (w' & -> & (logs & Htrace & Hlen & Hlogs) & Hawaits)
      end.
      exists w'. split; [reflexivity|]. split; [|exact Hawaits].
      cbn [trace] in Htrace. eexists (_ :: _ :: logs).
      split; [rewrite Htrace, <- !app_assoc; reflexivity|].
      split; [cbn [length]; lia|].
      repeat (constructor; [eexists; reflexivity|]). exact Hlogs. }
  destruct (Hloop emptyAcc) as (w' & Hrun & Hrest).
  exists w'. split; [|exact Hrest]. unfold processIssues. now rewrite bind_run, Hrun.
Qed.

Lemma processIssues_all_skipped_witness :
  exists w',
    processIssues (Demo.services [] Demo.prompt) [Demo.issue43; Demo.issue43]
                  Demo.world0 = (inr ([], []), w') /\
    length (trace w') = 4%nat.
Proof.
  destruct (processIssues_all_skipped (Demo.services [] Demo.prompt)
              [Demo.issue43; Demo.issue43] Demo.world0)
    as (w' & Hrun & (logs & Htrace & Hlen & _) & _);
    [repeat constructor|].
  exists w'. split; [exact Hrun|]. now rewrite Htrace, length_app, Hlen.
Defined.
